(** * distrikv: the storage engine, the shard table and process start-up

    A shallow embedding of [db/db.go] and [main.go].

    The bbolt engine that [db.go] drives is an external package; it is
    represented here by the contract its documentation gives: a bucket is a
    key-sorted sequence of (key, value) pairs, [Update] runs a closure in a
    writable transaction that commits when the closure returns [nil] and
    rolls back otherwise, [View] runs a closure in a read-only transaction,
    [Get] returns [nil] exactly for an absent key.  I/O failures of the
    engine are outside the model.

    The package [config] is known from its test alone; its shard table and
    ownership function follow the specification.

    A [[]byte] argument is given by its contents, a [nil] slice being the
    empty sequence; a [[]byte] result keeps whether it is [nil] and where
    its backing array lives. *)

From Stdlib Require Import List Strings.String Strings.Ascii Strings.Byte.
From Stdlib Require Import NArith Bool Arith Lia.
Import ListNotations.
Open Scope string_scope.
Open Scope list_scope.

Set Implicit Arguments.

(* ================================================================= *)
(** ** Go values *)

Module Go.

(** The contents of a [[]byte]. *)
Definition bytes := list byte.

(** Where the backing array of a slice lives: inside the pages of a bbolt
    transaction (valid only while that transaction is open) or on the Go
    heap. *)
Inductive backing := TxPage | Heap.

(** A [[]byte] value as a callee hands it out: [nil], or a slice with its
    backing array and contents. *)
Inductive slice :=
| nilSlice
| Slice (mem : backing) (data : bytes).

Definition data_of (s : slice) : bytes :=
  match s with
  | nilSlice => []
  | Slice _ d => d
  end.

Definition is_nil (s : slice) : bool :=
  match s with
  | nilSlice => true
  | Slice _ _ => false
  end.

(** [make([]byte, n)] *)
Definition make (n : nat) : bytes := repeat x00 n.

(** [copy(dst, src)]: the first [min(len(dst), len(src))] bytes of [dst]
    are overwritten with those of [src]. *)
Definition copy (dst src : bytes) : bytes :=
  let n := Nat.min (List.length dst) (List.length src) in
  firstn n src ++ skipn n dst.

(** [[]byte(s)] and [string(b)] *)
Definition bytes_of_string (s : string) : bytes := list_byte_of_string s.
Definition string_of_bytes (b : bytes) : string := string_of_list_byte b.

Definition byte_compare (a b : byte) : comparison :=
  N.compare (Byte.to_N a) (Byte.to_N b).

(** [bytes.Compare]: lexicographic order on unsigned bytes. *)
Definition bytes_Compare (a b : bytes) : comparison :=
  list_compare byte_compare a b.

(** [bytes.Equal] *)
Definition bytes_Equal (a b : bytes) : bool :=
  if list_eq_dec byte_eq_dec a b then true else false.

Definition bytes_lt (a b : bytes) : Prop := bytes_Compare a b = Lt.
Definition bytes_le (a b : bytes) : Prop := bytes_Compare a b <> Gt.

(** Go's [error] values that occur in the program. *)
Inductive error :=
| errors_New (msg : string)     (* errors.New(msg) *)
| ErrTxNotWritable              (* bbolt *)
| ErrKeyRequired                (* bbolt *)
| ErrKeyTooLarge                (* bbolt *)
| ErrValueTooLarge              (* bbolt *)
| ErrOpen (msg : string)        (* bolt.Open could not use the path *)
| ErrParse (msg : string)       (* the configuration file could not be read *)
| ConfigError.                  (* an inconsistent shard list *)

(** A call that yields a value or an error. *)
Inductive result (A : Type) :=
| Ok (a : A)
| Err (e : error).
Arguments Err {A} e.

Definition bind {A B} (r : result A) (k : A -> result B) : result B :=
  match r with
  | Ok a => k a
  | Err e => Err e
  end.

End Go.

Import Go.

Declare Scope go_scope.
Delimit Scope go_scope with go.
Notation "x <- r ;; k" := (Go.bind r (fun x => k))
  (at level 61, r at next level, right associativity) : go_scope.
Open Scope go_scope.

(* ================================================================= *)
(** ** The bbolt engine *)

Module bolt.

(** [bolt.MaxKeySize] and [bolt.MaxValueSize = (1 << 31) - 2]. *)
Definition MaxKeySize : N := 32768.
Definition MaxValueSize : N := 2147483646.

Definition len (b : bytes) : N := N.of_nat (List.length b).

(** A bucket: its pairs in increasing key order, as the B+tree keeps
    them. *)
Definition bucket := list (bytes * bytes).

(** Search for [k], walking the pairs in key order. *)
Fixpoint get (k : bytes) (b : bucket) : option bytes :=
  match b with
  | [] => None
  | (k', v') :: rest =>
      match bytes_Compare k k' with
      | Lt => None
      | Eq => Some v'
      | Gt => get k rest
      end
  end.

(** Insert [k] at its place, or overwrite the value it has. *)
Fixpoint put (k v : bytes) (b : bucket) : bucket :=
  match b with
  | [] => [(k, v)]
  | (k', v') :: rest =>
      match bytes_Compare k k' with
      | Lt => (k, v) :: b
      | Eq => (k, v) :: rest
      | Gt => (k', v') :: put k v rest
      end
  end.

(** Remove the pair of [k]; nothing happens when there is none. *)
Fixpoint delete (k : bytes) (b : bucket) : bucket :=
  match b with
  | [] => []
  | (k', v') :: rest =>
      match bytes_Compare k k' with
      | Lt => b
      | Eq => rest
      | Gt => (k', v') :: delete k rest
      end
  end.

(** [k] is below the first key of [b]. *)
Definition above (k : bytes) (b : bucket) : bool :=
  match b with
  | [] => true
  | (k', _) :: _ =>
      match bytes_Compare k k' with Lt => true | _ => false end
  end.

(** The keys of [b] increase strictly. *)
Fixpoint sorted (b : bucket) : bool :=
  match b with
  | [] => true
  | (k, _) :: rest => above k rest && sorted rest
  end.

(** The number of pairs a bucket holds for [k]. *)
Definition entries (k : bytes) (b : bucket) : nat :=
  List.length (filter (fun kv => bytes_Equal (fst kv) k) b).

(** The two buckets of the program, [[]byte("default")] and
    [[]byte("replication")]. *)
Inductive name := defaultBucket | replicaBucket.

(** What a database file holds of the two buckets.  Neither ever holds a
    nested bucket, so the incompatible-value errors of [Put] and [Delete]
    do not arise. *)
Record file := {
  file_default : option bucket;
  file_replication : option bucket
}.

Definition file_sorted (f : file) : Prop :=
  (forall b, file_default f = Some b -> sorted b = true) /\
  (forall b, file_replication f = Some b -> sorted b = true).

(** The two buckets of an open database. *)
Record DB := {
  default : bucket;
  replication : bucket
}.

Record Tx := {
  writable : bool;
  root : DB
}.

(** [t.Bucket(n)] *)
Definition Bucket (t : Tx) (n : name) : bucket :=
  match n with
  | defaultBucket => default (root t)
  | replicaBucket => replication (root t)
  end.

Definition with_bucket (t : Tx) (n : name) (b : bucket) : Tx :=
  match n with
  | defaultBucket =>
      {| writable := writable t;
         root := {| default := b; replication := replication (root t) |} |}
  | replicaBucket =>
      {| writable := writable t;
         root := {| default := default (root t); replication := b |} |}
  end.

(** [b.Get(key)]: [nil] when the key is absent, else a slice into the
    transaction's pages. *)
Definition Get (t : Tx) (n : name) (key : bytes) : slice :=
  match get key (Bucket t n) with
  | Some v => Slice TxPage v
  | None => nilSlice
  end.

(** [b.Put(key, value)] *)
Definition Put (n : name) (key value : bytes) (t : Tx) : result Tx :=
  if negb (writable t) then Err ErrTxNotWritable
  else if (len key =? 0)%N then Err ErrKeyRequired
  else if (MaxKeySize <? len key)%N then Err ErrKeyTooLarge
  else if (MaxValueSize <? len value)%N then Err ErrValueTooLarge
  else Ok (with_bucket t n (put key value (Bucket t n))).

(** The three size checks of [Put] pass. *)
Definition accepts (key value : bytes) : bool :=
  negb (len key =? 0)%N
  && negb (MaxKeySize <? len key)%N
  && negb (MaxValueSize <? len value)%N.

(** [b.Delete(key)] *)
Definition Delete (n : name) (key : bytes) (t : Tx) : result Tx :=
  if negb (writable t) then Err ErrTxNotWritable
  else Ok (with_bucket t n (delete key (Bucket t n))).

(** [b.Cursor().First()]: the pair with the least key, or [nil, nil]. *)
Definition Cursor_First (t : Tx) (n : name) : slice * slice :=
  match Bucket t n with
  | [] => (nilSlice, nilSlice)
  | (k, v) :: _ => (Slice TxPage k, Slice TxPage v)
  end.

(** [b.ForEach(fn)]: [fn] on every pair in key order, stopping at the
    first error.  [S] is what the closure keeps in the variables it
    captures. *)
Fixpoint ForEach_pairs {S : Type}
    (fn : bytes -> bytes -> S -> S * option error)
    (b : bucket) (s : S) : S * option error :=
  match b with
  | [] => (s, None)
  | (k, v) :: rest =>
      match fn k v s with
      | (s', None) => ForEach_pairs fn rest s'
      | (s', Some e) => (s', Some e)
      end
  end.

Definition ForEach {S : Type} (t : Tx) (n : name)
    (fn : bytes -> bytes -> S -> S * option error) (s : S)
    : S * option error :=
  ForEach_pairs fn (Bucket t n) s.

(** [db.Update(fn)]: commit when [fn] returns [nil], roll back when it
    returns an error. *)
Definition Update (d : DB) (fn : Tx -> result Tx) : option error * DB :=
  match fn {| writable := true; root := d |} with
  | Ok t => (None, root t)
  | Err e => (Some e, d)
  end.

(** [db.View(fn)]: [fn] in a read-only transaction; [A] is what the
    closure leaves in the variables it captures, next to the error it
    returns. *)
Definition View {A : Type} (d : DB) (fn : Tx -> A * option error)
    : A * option error :=
  fn {| writable := false; root := d |}.

(** [t.CreateBucketIfNotExists(name)] on what the file holds. *)
Definition CreateBucketIfNotExists (b : option bucket) : bucket :=
  match b with
  | Some x => x
  | None => []
  end.

End bolt.

(* ================================================================= *)
(** ** db/db.go *)

Module db.

Import bolt.

(** [type Database struct { db *bolt.DB; readOnly bool }].  The state of
    the bolt database travels with the handle. *)
Record Database := {
  db : DB;
  readOnly : bool
}.

Definition with_db (d : Database) (b : DB) : Database :=
  {| db := b; readOnly := readOnly d |}.

(** [createDefaultBucket]: one [Update] that creates both buckets when the
    file lacks them.  The two names are constant and well-formed, so
    neither [CreateBucketIfNotExists] fails. *)
Definition createDefaultBucket (f : file) : result DB :=
  Ok {| default := CreateBucketIfNotExists (file_default f);
        replication := CreateBucketIfNotExists (file_replication f) |}.

(** [NewDatabase(dbPath, readOnly)]; [opened] is what
    [bolt.Open(dbPath, 0600, nil)] returned. *)
Definition NewDatabase (opened : result file) (readOnly : bool)
    : result Database :=
  boltDb <- opened ;;
  d <- createDefaultBucket boltDb ;;
  Ok {| db := d; readOnly := readOnly |}.

(** [SetKey] *)
Definition SetKey (d : Database) (key : string) (value : bytes)
    : option error * Database :=
  if readOnly d then (Some (errors_New "read only mode"), d)
  else
    let (err, b) :=
      Update (db d) (fun t =>
        t1 <- Put defaultBucket (bytes_of_string key) value t ;;
        Put replicaBucket (bytes_of_string key) value t1) in
    (err, with_db d b).

(** [GetKey] *)
Definition GetKey (d : Database) (key : string) : slice * option error :=
  View (db d) (fun t =>
    let b := defaultBucket in
    let res := Get t b (bytes_of_string key) in
    (res, None)).

(** [copyByteSlice] *)
Definition copyByteSlice (src : slice) : slice :=
  match src with
  | nilSlice => nilSlice
  | Slice _ s =>
      let dest := make (List.length s) in
      Slice Heap (copy dest s)
  end.

(** [GetNextForReplication] *)
Definition GetNextForReplication (d : Database)
    : slice * slice * option error :=
  let '(key, value, err) :=
    View (db d) (fun t =>
      let b := replicaBucket in
      let (k, v) := Cursor_First t b in
      (copyByteSlice k, copyByteSlice v, None)) in
  match err with
  | Some _ => (nilSlice, nilSlice, err)
  | None => (key, value, err)
  end.

(** [DeleteReplicationKey] *)
Definition DeleteReplicationKey (d : Database) (key value : bytes)
    : option error * Database :=
  let (err, b) :=
    Update (db d) (fun t =>
      let b := replicaBucket in
      match Get t b key with
      | nilSlice => Err (errors_New "key does not exist")
      | Slice _ v =>
          if negb (bytes_Equal v value)
          then Err (errors_New "value does not match")
          else Delete b key t
      end) in
  (err, with_db d b).

(** The first transaction of [DeleteExtraKeys]: the keys of the primary
    bucket that [isExtra] accepts, in the order [ForEach] meets them. *)
Definition collectExtraKeys (d : DB) (isExtra : string -> bool)
    : list string * option error :=
  View d (fun t =>
    let b := defaultBucket in
    ForEach t b (fun k v keys =>
      let ks := string_of_bytes k in
      if isExtra ks then (keys ++ [ks], None) else (keys, None)) []).

(** The loop of the second transaction. *)
Fixpoint deleteKeys (keys : list string) (t : Tx) : result Tx :=
  match keys with
  | [] => Ok t
  | k :: rest =>
      t' <- Delete defaultBucket (bytes_of_string k) t ;;
      deleteKeys rest t'
  end.

(** [DeleteExtraKeys], with what other goroutines commit between its two
    transactions: [between] maps the database the scan saw to the database
    the write transaction starts from. *)
Definition DeleteExtraKeys_between (between : DB -> DB) (d : Database)
    (isExtra : string -> bool) : option error * Database :=
  let (keys, err) := collectExtraKeys (db d) isExtra in
  match err with
  | Some e => (Some e, with_db d (between (db d)))
  | None =>
      let (err', b) := Update (between (db d)) (deleteKeys keys) in
      (err', with_db d b)
  end.

(** [DeleteExtraKeys] when nothing else writes meanwhile. *)
Definition DeleteExtraKeys (d : Database) (isExtra : string -> bool)
    : option error * Database :=
  DeleteExtraKeys_between (fun b => b) d isExtra.

(** The calls a client of the package can make, and the handle each one
    leaves behind. *)
Inductive call :=
| CallSetKey (key : string) (value : bytes)
| CallGetKey (key : string)
| CallGetNextForReplication
| CallDeleteReplicationKey (key value : bytes)
| CallDeleteExtraKeys (isExtra : string -> bool).

Definition exec (d : Database) (c : call) : Database :=
  match c with
  | CallSetKey key value => snd (SetKey d key value)
  | CallGetKey _ => d
  | CallGetNextForReplication => d
  | CallDeleteReplicationKey key value => snd (DeleteReplicationKey d key value)
  | CallDeleteExtraKeys isExtra => snd (DeleteExtraKeys d isExtra)
  end.

Definition execs (d : Database) (cs : list call) : Database :=
  fold_left exec cs d.

(** The primary and the outbox region of a handle. *)
Definition primary (d : Database) : bucket := default (db d).
Definition outbox (d : Database) : bucket := replication (db d).

(** Both buckets of a handle are key-sorted. *)
Definition well_formed (d : Database) : Prop :=
  sorted (primary d) = true /\ sorted (outbox d) = true.

(** [c] is [SetKey] on the key with bytes [key]. *)
Definition sets (key : bytes) (c : call) : bool :=
  match c with
  | CallSetKey k _ => bytes_Equal (bytes_of_string k) key
  | _ => false
  end.

(** [c] acknowledges the outbox entry [(key, value)]. *)
Definition acknowledges (key value : bytes) (c : call) : bool :=
  match c with
  | CallDeleteReplicationKey k v => bytes_Equal k key && bytes_Equal v value
  | _ => false
  end.

(** [c] may write or delete [key] in the primary bucket. *)
Definition writes_primary (key : bytes) (c : call) : bool :=
  match c with
  | CallSetKey k _ => bytes_Equal (bytes_of_string k) key
  | CallDeleteExtraKeys isExtra => isExtra (string_of_bytes key)
  | _ => false
  end.

Definition is_cleanup (c : call) : bool :=
  match c with
  | CallDeleteExtraKeys _ => true
  | _ => false
  end.

(** A new file: neither bucket exists yet. *)
Definition new_file : file :=
  {| file_default := None; file_replication := None |}.

(** The handles a client can reach from a new file without the clean-up
    call. *)
Inductive reachable : Database -> Prop :=
| reach_open (mode : bool) (d : Database) :
    NewDatabase (Ok new_file) mode = Ok d -> reachable d
| reach_call (d : Database) (c : call) :
    reachable d -> is_cleanup c = false -> reachable (exec d c).

(** A handle on a new file, and one with three keys written, the first of
    them acknowledged. *)
Definition opened (mode : bool) : Database :=
  {| db := {| default := []; replication := [] |}; readOnly := mode |}.

Definition sample : Database :=
  execs (opened false)
    [ CallSetKey "bob" (bytes_of_string "v1");
      CallSetKey "alice" (bytes_of_string "v2");
      CallSetKey "carol" (bytes_of_string "v3");
      CallDeleteReplicationKey (bytes_of_string "bob") (bytes_of_string "v1") ].

(** What the file holds once the commits of a handle are on disk. *)
Definition file_of (b : DB) : file :=
  {| file_default := Some (default b);
     file_replication := Some (replication b) |}.

(** Every pair of a bucket passes the size checks of [Put]. *)
Definition within_limits (b : bucket) : Prop :=
  Forall (fun kv => accepts (fst kv) (snd kv) = true) b.

(** [small] holds no pair that [big] lacks. *)
Definition sub_bucket (small big : bucket) : Prop :=
  forall k v : bytes, get k small = Some v -> get k big = Some v.

(** The outbox and the primary bucket agree wherever both hold a key. *)
Definition agree (d : Database) : Prop :=
  forall k v v' : bytes,
    get k (outbox d) = Some v -> get k (primary d) = Some v' -> v = v'.

(** The three errors of the package, under the names the specification
    gives them. *)
Definition ReadOnlyError : error := errors_New "read only mode".
Definition NotFound : error := errors_New "key does not exist".
Definition Conflict : error := errors_New "value does not match".

End db.

(* ================================================================= *)
(** ** The shard table *)

Module config.

(** [config.Shard], as the test of the package builds it. *)
Record Shard := {
  Name : string;
  Index : N;
  Address : string
}.

(** [config.Config] *)
Record Config := {
  Shards : list Shard
}.

(** Modelled from the spec: the package [config] is not among the sources
    (only its test is), so the table, its constructor and the ownership
    function follow sections 3 and 4.1 of the specification.  A table
    holds the shards, their number and the index of this process's
    shard. *)
Record ShardTable := {
  shards : list Shard;
  count : N;
  selfIndex : N
}.

(** Modelled from the spec: the checks of [build].  No element occurs
    twice. *)
Fixpoint distinct {A : Type} (eqb : A -> A -> bool) (l : list A) : bool :=
  match l with
  | [] => true
  | x :: rest => negb (existsb (eqb x) rest) && distinct eqb rest
  end.

(** Modelled from the spec: the indices are exactly 0 .. N-1. *)
Definition contiguous (l : list Shard) : bool :=
  let n := List.length l in
  forallb (fun i => existsb (N.eqb (N.of_nat i)) (map Index l)) (seq 0 n)
  && forallb (fun i => (i <? N.of_nat n)%N) (map Index l).

(** Modelled from the spec: the shard named [selfName]. *)
Definition find_self (l : list Shard) (selfName : string) : option Shard :=
  find (fun s => String.eqb (Name s) selfName) l.

(** Modelled from the spec: [build(shards, selfName)] fails with
    ConfigError when [selfName] is absent, when the indices are not
    exactly 0 .. N-1, or when a name or an index occurs twice. *)
Definition build (l : list Shard) (selfName : string) : result ShardTable :=
  match find_self l selfName with
  | None => Err ConfigError
  | Some self =>
      if contiguous l
         && distinct String.eqb (map Name l)
         && distinct N.eqb (map Index l)
      then Ok {| shards := l;
                 count := N.of_nat (List.length l);
                 selfIndex := Index self |}
      else Err ConfigError
  end.

Section Ownership.

(** The fixed hash of the raw key bytes; the specification leaves the
    algorithm open and requires that it takes no seed. *)
Variable hash : bytes -> N.

(** Modelled from the spec: [ownerIndex(key)] is the hash of the raw
    key bytes reduced modulo [count]. *)
Definition ownerIndex (t : ShardTable) (key : bytes) : N :=
  (hash key mod count t)%N.

(** Modelled from the spec: [isOwnedByMe(key)] is
    [ownerIndex(key) == selfIndex]. *)
Definition isOwnedByMe (t : ShardTable) (key : bytes) : bool :=
  (ownerIndex t key =? selfIndex t)%N.

(** Modelled from the spec: [isExtra(key)] is [!isOwnedByMe(key)]. *)
Definition isExtra (t : ShardTable) (key : string) : bool :=
  negb (isOwnedByMe t (bytes_of_string key)).

End Ownership.

(** A hash to run the definitions with: 64-bit FNV-1 over the bytes, the
    multiplication wrapping at 2^64. *)
Definition fnv_offset64 : N := 14695981039346656037.
Definition fnv_prime64 : N := 1099511628211.

Definition fnv1_64 (key : bytes) : N :=
  fold_left
    (fun h b => N.lxor ((h * fnv_prime64) mod 2 ^ 64) (Byte.to_N b))%N
    key fnv_offset64.

(** Three shards to run the definitions on. *)
Definition three_shards : list Shard :=
  [ {| Name := "Xian"; Index := 0; Address := "localhost:8080" |};
    {| Name := "Beijing"; Index := 1; Address := "localhost:8081" |};
    {| Name := "Shanghai"; Index := 2; Address := "localhost:8082" |} ].

End config.

(* ================================================================= *)
(** ** main.go *)

Module main.

Import bolt db config.

(** The four [flag.String] variables. *)
Record flags := {
  dbLocation : string;
  httpAddr : string;
  configFileName : string;
  shard : string
}.

(** The default each declaration gives. *)
Definition declared : flags :=
  {| dbLocation := "";
     httpAddr := "";
     configFileName := "sharding.toml";
     shard := "" |}.

(** One [-name=value] of the command line; a name that was not declared
    makes [flag.Parse] stop the process with the usage message. *)
Definition set (f : flags) (name value : string) : option flags :=
  if String.eqb name "db-location" then
    Some {| dbLocation := value; httpAddr := httpAddr f;
            configFileName := configFileName f; shard := shard f |}
  else if String.eqb name "http-addr" then
    Some {| dbLocation := dbLocation f; httpAddr := value;
            configFileName := configFileName f; shard := shard f |}
  else if String.eqb name "config-file" then
    Some {| dbLocation := dbLocation f; httpAddr := httpAddr f;
            configFileName := value; shard := shard f |}
  else if String.eqb name "shard" then
    Some {| dbLocation := dbLocation f; httpAddr := httpAddr f;
            configFileName := configFileName f; shard := value |}
  else None.

(** [flag.Parse()] over the flags given on the command line, in order. *)
Fixpoint Parse (args : list (string * string)) (f : flags) : option flags :=
  match args with
  | [] => Some f
  | (name, value) :: rest =>
      match set f name value with
      | Some f' => Parse rest f'
      | None => None
      end
  end.

(** How the process goes on. *)
Inductive outcome :=
| Usage                                   (* flag.Parse: exit status 2 *)
| Fatal (msg : string)                    (* log.Fatal(msg) *)
| FatalErr (e : error)                    (* log.Fatal(err) *)
| Serving (addr : string) (d : Database) (t : ShardTable).

(** The checks of [init] after [flag.Parse]: the message of the
    [log.Fatal] that is reached, if any. *)
Definition init (f : flags) : option string :=
  if String.eqb (httpAddr f) "" then Some "Must provide http-addr"
  else if String.eqb (dbLocation f) "" then Some "Must provide db-location"
  else if String.eqb (shard f) "" then Some "Must provide shard"
  else None.

Section Process.

(** The files the process finds: what [config.ParseFile] reads at a
    path and what [bolt.Open] finds at a path. *)
Variable ParseFile : string -> result Config.
Variable Open : string -> result file.

(** [main.go] calls [NewDatabase] with the path alone; the mode of the
    handle is left open. *)
Variable mode : bool.

(** [main]; [config.ParseShards] is the [build] of the specification. *)
Definition main (f : flags) : outcome :=
  match ParseFile (configFileName f) with
  | Err e => FatalErr e
  | Ok cfg =>
      match build (Shards cfg) (shard f) with
      | Err e => FatalErr e
      | Ok shards =>
          match NewDatabase (Open (dbLocation f)) mode with
          | Err e => FatalErr e
          | Ok d => Serving (httpAddr f) d shards
          end
      end
  end.

(** The process from its command line: [init] runs before [main]. *)
Definition start (args : list (string * string)) : outcome :=
  match Parse args declared with
  | None => Usage
  | Some f =>
      match init f with
      | Some msg => Fatal msg
      | None => main f
      end
  end.

End Process.

(** A flag is absent when the command line does not name it. *)
Definition absent (name : string) (args : list (string * string)) : Prop :=
  ~ In name (map fst args).

Definition serves (o : outcome) : bool :=
  match o with
  | Serving _ _ _ => true
  | _ => false
  end.

(** A command line without [-config-file], and a machine on which
    [sharding.toml] lists the three shards and any database path opens as a
    new file. *)
Definition args_without_config : list (string * string) :=
  [ ("db-location", "/tmp/xian.db");
    ("http-addr", "localhost:8080");
    ("shard", "Xian") ].

Definition args_without_shard : list (string * string) :=
  [ ("db-location", "/tmp/xian.db");
    ("http-addr", "localhost:8080");
    ("config-file", "sharding.toml") ].

Definition files_ParseFile (path : string) : result Config :=
  if String.eqb path "sharding.toml"
  then Ok {| Shards := three_shards |}
  else Err (ErrParse path).

Definition files_Open (path : string) : result file :=
  Ok new_file.

End main.

Unset Implicit Arguments.

(* ================================================================= *)
(** ** The byte order *)

Section ByteOrder.

Lemma byte_to_N_inj (a b : byte) : Byte.to_N a = Byte.to_N b -> a = b.
Proof.
  intros H.
  pose proof (Byte.of_to_N a) as Ha.
  pose proof (Byte.of_to_N b) as Hb.
  rewrite H in Ha. congruence.
Qed.

Lemma byte_compare_eq (a b : byte) : byte_compare a b = Eq <-> a = b.
Proof.
  unfold byte_compare. rewrite N.compare_eq_iff. split.
  - apply byte_to_N_inj.
  - now intros ->.
Qed.

Lemma byte_compare_opp (a b : byte) :
  byte_compare b a = CompOpp (byte_compare a b).
Proof. unfold byte_compare. apply N.compare_antisym. Qed.

Lemma byte_compare_trans (a b c : byte) (r : comparison) :
  byte_compare a b = r -> byte_compare b c = r -> byte_compare a c = r.
Proof.
  unfold byte_compare. destruct r; intros H1 H2.
  - rewrite N.compare_eq_iff in *. congruence.
  - rewrite N.compare_lt_iff in *. lia.
  - rewrite N.compare_gt_iff in *. lia.
Qed.

Lemma bytes_Compare_eq (a b : bytes) : bytes_Compare a b = Eq <-> a = b.
Proof. apply list_compare_refl, byte_compare_eq. Qed.

Lemma bytes_Compare_refl (a : bytes) : bytes_Compare a a = Eq.
Proof. now apply bytes_Compare_eq. Qed.

Lemma bytes_Compare_opp (a b : bytes) :
  bytes_Compare b a = CompOpp (bytes_Compare a b).
Proof.
  apply list_compare_antisym.
  - apply byte_compare_eq.
  - intros x y. apply byte_compare_opp.
Qed.

Lemma bytes_Compare_trans (a b c : bytes) (r : comparison) :
  bytes_Compare a b = r -> bytes_Compare b c = r -> bytes_Compare a c = r.
Proof.
  apply list_compare_trans.
  - apply byte_compare_eq.
  - intros x y z r'. apply byte_compare_trans.
  - intros x y. apply byte_compare_opp.
Qed.

Lemma bytes_lt_trans (a b c : bytes) :
  bytes_lt a b -> bytes_lt b c -> bytes_lt a c.
Proof. apply bytes_Compare_trans. Qed.

Lemma bytes_lt_gt (a b : bytes) : bytes_lt a b <-> bytes_Compare b a = Gt.
Proof.
  unfold bytes_lt. rewrite (bytes_Compare_opp a b).
  destruct (bytes_Compare a b); simpl; split; congruence.
Qed.

Lemma bytes_lt_neq (a b : bytes) : bytes_lt a b -> a <> b.
Proof.
  unfold bytes_lt. intros H ->. rewrite bytes_Compare_refl in H. discriminate.
Qed.

Lemma bytes_Equal_true (a b : bytes) : bytes_Equal a b = true <-> a = b.
Proof.
  unfold bytes_Equal. destruct (list_eq_dec byte_eq_dec a b); split;
    congruence.
Qed.

Lemma bytes_Equal_refl (a : bytes) : bytes_Equal a a = true.
Proof. now apply bytes_Equal_true. Qed.

Lemma bytes_Equal_false (a b : bytes) : bytes_Equal a b = false <-> a <> b.
Proof.
  unfold bytes_Equal. destruct (list_eq_dec byte_eq_dec a b); split;
    congruence.
Qed.

Lemma bytes_string_bytes (b : bytes) :
  bytes_of_string (string_of_bytes b) = b.
Proof. apply list_byte_of_string_of_list_byte. Qed.

Lemma bytes_of_string_inj (s1 s2 : string) :
  bytes_of_string s1 = bytes_of_string s2 -> s1 = s2.
Proof.
  unfold bytes_of_string. intros H.
  rewrite <- (string_of_list_byte_of_string s1),
          <- (string_of_list_byte_of_string s2).
  now rewrite H.
Qed.

(** [copy] into a fresh array of the source's length yields the source. *)
Lemma copy_make (s : bytes) : copy (make (List.length s)) s = s.
Proof.
  unfold copy, make. rewrite repeat_length, Nat.min_id.
  rewrite firstn_all, skipn_all2 by (rewrite repeat_length; lia).
  apply app_nil_r.
Qed.

End ByteOrder.

(* ================================================================= *)
(** ** Buckets as key-sorted sequences *)

Section Buckets.

Import bolt.

(** Case analysis on a comparison of keys, replacing equal keys. *)
Ltac cmp k h :=
  let E := fresh "E" in
  destruct (bytes_Compare k h) eqn:E;
  [ apply bytes_Compare_eq in E; subst | | ].

Lemma get_put_same (k v : bytes) (b : bucket) :
  get k (put k v b) = Some v.
Proof.
  induction b as [|[h vh] rest IH]; simpl.
  - now rewrite bytes_Compare_refl.
  - destruct (bytes_Compare k h) eqn:E; simpl.
    + now rewrite bytes_Compare_refl.
    + now rewrite bytes_Compare_refl.
    + now rewrite E.
Qed.

Lemma get_put_other (k k' v : bytes) (b : bucket) :
  k <> k' -> get k' (put k v b) = get k' b.
Proof.
  intros Hne. induction b as [|[h vh] rest IH]; simpl.
  - cmp k' k; congruence.
  - cmp k h; simpl.
    + cmp k' h; congruence.
    + cmp k' k; try congruence.
      now rewrite (bytes_Compare_trans _ _ _ _ E0 E).
    + destruct (bytes_Compare k' h); auto.
Qed.

Lemma above_lt (a c : bytes) (b : bucket) :
  bytes_lt a c -> above c b = true -> above a b = true.
Proof.
  destruct b as [|[h vh] rest]; simpl; auto.
  intros Hac. destruct (bytes_Compare c h) eqn:E; try discriminate.
  intros _. now rewrite (bytes_lt_trans _ _ _ Hac E).
Qed.

Lemma above_get (k : bytes) (b : bucket) :
  above k b = true -> get k b = None.
Proof.
  destruct b as [|[h vh] rest]; simpl; auto.
  destruct (bytes_Compare k h); congruence.
Qed.

Lemma sorted_cons (h vh : bytes) (rest : bucket) :
  sorted ((h, vh) :: rest) = true <->
  above h rest = true /\ sorted rest = true.
Proof. simpl. apply andb_true_iff. Qed.

Lemma above_put (h k v : bytes) (b : bucket) :
  bytes_lt h k -> above h b = true -> above h (put k v b) = true.
Proof.
  intros Hhk. destruct b as [|[h' vh'] rest]; simpl.
  - now rewrite Hhk.
  - intros Hab. destruct (bytes_Compare k h'); simpl; auto;
      now rewrite Hhk.
Qed.

Lemma sorted_put (k v : bytes) (b : bucket) :
  sorted b = true -> sorted (put k v b) = true.
Proof.
  induction b as [|[h vh] rest IH]; auto.
  intros Hs. apply sorted_cons in Hs as [Ha Hr].
  cbn [put]. cmp k h.
  - apply sorted_cons. auto.
  - apply sorted_cons. split.
    + simpl. now rewrite E.
    + apply sorted_cons. auto.
  - apply sorted_cons. split; auto.
    apply above_put; auto. now apply bytes_lt_gt.
Qed.

Lemma get_delete_same (k : bytes) (b : bucket) :
  sorted b = true -> get k (delete k b) = None.
Proof.
  induction b as [|[h vh] rest IH]; auto.
  intros Hs. apply sorted_cons in Hs as [Ha Hr].
  cbn [delete]. cmp k h.
  - now apply above_get.
  - simpl. now rewrite E.
  - simpl. rewrite E. auto.
Qed.

Lemma get_delete_other (k k' : bytes) (b : bucket) :
  sorted b = true -> k <> k' -> get k' (delete k b) = get k' b.
Proof.
  intros Hs Hne. induction b as [|[h vh] rest IH]; auto.
  apply sorted_cons in Hs as [Ha Hr].
  cbn [delete]. cmp k h; auto.
  - simpl. cmp k' h; try congruence.
    apply above_get. now apply above_lt with h.
  - simpl. destruct (bytes_Compare k' h); auto.
Qed.

Lemma above_delete (h k : bytes) (b : bucket) :
  sorted b = true -> above h b = true -> above h (delete k b) = true.
Proof.
  destruct b as [|[h' vh'] rest]; auto.
  intros Hs Ha. apply sorted_cons in Hs as [Ha' Hr].
  cbn [delete]. destruct (bytes_Compare k h'); auto.
  apply above_lt with h'; auto.
  simpl in Ha. unfold bytes_lt. destruct (bytes_Compare h h'); congruence.
Qed.

Lemma sorted_delete (k : bytes) (b : bucket) :
  sorted b = true -> sorted (delete k b) = true.
Proof.
  induction b as [|[h vh] rest IH]; auto.
  intros Hs. pose proof Hs as Hs'. apply sorted_cons in Hs as [Ha Hr].
  cbn [delete]. destruct (bytes_Compare k h); auto.
  apply sorted_cons. split; auto. now apply above_delete.
Qed.

(** In a sorted bucket every pair after the first has a greater key. *)
Lemma sorted_tail_above (h vh : bytes) (rest : bucket) :
  sorted ((h, vh) :: rest) = true ->
  Forall (fun kv => bytes_lt h (fst kv)) rest.
Proof.
  revert h vh. induction rest as [|[h' vh'] rest IH]; intros h vh Hs.
  - constructor.
  - apply sorted_cons in Hs as [Ha Hr].
    assert (Hlt : bytes_lt h h').
    { simpl in Ha. unfold bytes_lt.
      destruct (bytes_Compare h h'); congruence. }
    constructor; auto.
    eapply Forall_impl; [| apply (IH h' vh' Hr)].
    intros kv Hkv. now apply bytes_lt_trans with h'.
Qed.

Lemma get_In (k v : bytes) (b : bucket) :
  get k b = Some v -> In (k, v) b.
Proof.
  induction b as [|[h vh] rest IH]; simpl; try discriminate.
  cmp k h; intros H; try discriminate.
  - left. congruence.
  - right. auto.
Qed.

Lemma In_get (k v : bytes) (b : bucket) :
  sorted b = true -> In (k, v) b -> get k b = Some v.
Proof.
  induction b as [|[h vh] rest IH]; simpl; try tauto.
  intros Hs [Heq | Hin].
  - inversion Heq; subst. now rewrite bytes_Compare_refl.
  - pose proof (@sorted_tail_above h vh rest Hs) as Hall.
    rewrite Forall_forall in Hall. specialize (Hall _ Hin). simpl in Hall.
    apply bytes_lt_gt in Hall. rewrite Hall.
    apply andb_true_iff in Hs as [_ Hr]. auto.
Qed.

(** A sorted bucket holds one pair for a key it has and none for a key it
    lacks. *)
Lemma entries_get (k : bytes) (b : bucket) :
  sorted b = true ->
  entries k b = match get k b with Some _ => 1 | None => 0 end.
Proof.
  unfold entries.
  induction b as [|[h vh] rest IH]; auto.
  intros Hs. pose proof (@sorted_tail_above h vh rest Hs) as Hall.
  apply sorted_cons in Hs as [Ha Hr]. specialize (IH Hr).
  cbn [filter fst get]. cmp k h.
  - rewrite bytes_Equal_refl. cbn [List.length]. rewrite IH.
    now rewrite (above_get _ _ Ha).
  - assert (Hne : bytes_Equal h k = false).
    { apply bytes_Equal_false. intros ->.
      rewrite bytes_Compare_refl in E. discriminate. }
    rewrite Hne, IH.
    now rewrite (above_get _ _ (above_lt _ _ _ E Ha)).
  - assert (Hne : bytes_Equal h k = false).
    { apply bytes_Equal_false. intros ->.
      rewrite bytes_Compare_refl in E. discriminate. }
    now rewrite Hne.
Qed.

End Buckets.

(* ================================================================= *)
(** ** The calls of the package *)

Section Calls.

Import bolt db.

Lemma with_db_same (d : Database) : with_db d (db d) = d.
Proof. now destruct d. Qed.

(** A transaction whose closure fails leaves the database as it was. *)
Lemma Update_rollback (d d' : DB) (fn : Tx -> result Tx) (e : error) :
  Update d fn = (Some e, d') -> d' = d.
Proof.
  unfold Update. destruct (fn _); intros H; inversion H; reflexivity.
Qed.

(** A read-only transaction cannot write. *)
Lemma View_cannot_write (d : DB) (n : name) (key value : bytes) :
  Put n key value {| writable := false; root := d |} = Err ErrTxNotWritable /\
  Delete n key {| writable := false; root := d |} = Err ErrTxNotWritable.
Proof. split; reflexivity. Qed.

Lemma Put_accepts (n : name) (key value : bytes) (t : Tx) :
  writable t = true ->
  accepts key value = true ->
  Put n key value t = Ok (with_bucket t n (put key value (Bucket t n))).
Proof.
  unfold Put, accepts. intros ->.
  destruct (len key =? 0)%N; try discriminate.
  destruct (MaxKeySize <? len key)%N; try discriminate.
  destruct (MaxValueSize <? len value)%N; try discriminate.
  reflexivity.
Qed.

Lemma Put_rejects (n : name) (key value : bytes) (t : Tx) :
  accepts key value = false ->
  exists e, Put n key value t = Err e.
Proof.
  unfold Put, accepts.
  destruct (negb (writable t)); eauto.
  destruct (len key =? 0)%N; eauto.
  destruct (MaxKeySize <? len key)%N; eauto.
  destruct (MaxValueSize <? len value)%N; eauto.
  discriminate.
Qed.

(** The handle [SetKey] leaves when both [Put]s succeed. *)
Lemma SetKey_ok (d : Database) (k : string) (v : bytes) :
  readOnly d = false ->
  accepts (bytes_of_string k) v = true ->
  SetKey d k v =
    (None,
     with_db d {| default := put (bytes_of_string k) v (default (db d));
                  replication :=
                    put (bytes_of_string k) v (replication (db d)) |}).
Proof.
  unfold SetKey, Update. intros -> Hacc.
  rewrite Put_accepts by auto. unfold bind.
  rewrite Put_accepts by auto. reflexivity.
Qed.

(** [SetKey] either commits both writes or changes nothing. *)
Lemma SetKey_cases (d : Database) (k : string) (v : bytes) :
  (readOnly d = false /\ accepts (bytes_of_string k) v = true /\
   SetKey d k v =
     (None,
      with_db d {| default := put (bytes_of_string k) v (default (db d));
                   replication :=
                     put (bytes_of_string k) v (replication (db d)) |}))
  \/ (exists e, SetKey d k v = (Some e, d)).
Proof.
  destruct (readOnly d) eqn:Hro.
  - right. unfold SetKey. rewrite Hro. eauto.
  - destruct (accepts (bytes_of_string k) v) eqn:Hacc.
    + left. repeat split. now apply SetKey_ok.
    + right. unfold SetKey, Update. rewrite Hro.
      destruct (@Put_rejects defaultBucket _ _
                  {| writable := true; root := db d |} Hacc) as [e ->].
      exists e. unfold bind. now rewrite with_db_same.
Qed.

Lemma SetKey_success (d : Database) (k : string) (v : bytes) :
  fst (SetKey d k v) = None ->
  readOnly d = false /\
  snd (SetKey d k v) =
    with_db d {| default := put (bytes_of_string k) v (default (db d));
                 replication :=
                   put (bytes_of_string k) v (replication (db d)) |}.
Proof.
  destruct (SetKey_cases d k v) as [(Hro & _ & ->) | [e ->]]; simpl.
  - auto.
  - discriminate.
Qed.

(** The outcome of [DeleteReplicationKey] by what the outbox holds. *)
Lemma DeleteReplicationKey_cases (d : Database) (k v : bytes) :
  DeleteReplicationKey d k v =
    match get k (outbox d) with
    | None => (Some NotFound, d)
    | Some v' =>
        if bytes_Equal v' v
        then (None,
              with_db d {| default := default (db d);
                           replication := delete k (replication (db d)) |})
        else (Some Conflict, d)
    end.
Proof.
  unfold DeleteReplicationKey, Update, Get, outbox. cbn.
  destruct (get k (replication (db d))) as [v'|].
  - destruct (bytes_Equal v' v); cbn; auto. now rewrite with_db_same.
  - now rewrite with_db_same.
Qed.

(** The keys the scan collects. *)
Lemma ForEach_collect (isExtra : string -> bool) (b : bucket)
    (acc : list string) :
  ForEach_pairs
    (fun (k _ : bytes) (keys : list string) =>
       let ks := string_of_bytes k in
       if isExtra ks then (keys ++ [ks], None) else (keys, None : option error))
    b acc
  = (acc ++ filter isExtra (map (fun kv => string_of_bytes (fst kv)) b),
     None).
Proof.
  revert acc. induction b as [|[h vh] rest IH]; intros acc; simpl.
  - now rewrite app_nil_r.
  - destruct (isExtra (string_of_bytes h)); rewrite IH; auto.
    now rewrite <- app_assoc.
Qed.

Lemma collectExtraKeys_eq (d : DB) (isExtra : string -> bool) :
  collectExtraKeys d isExtra =
    (filter isExtra (map (fun kv => string_of_bytes (fst kv)) (default d)),
     None).
Proof. unfold collectExtraKeys, View, ForEach. apply ForEach_collect. Qed.

(** The loop of deletions never fails in a writable transaction and
    touches the primary bucket alone. *)
Lemma deleteKeys_eq (keys : list string) (t : Tx) :
  writable t = true ->
  deleteKeys keys t =
    Ok {| writable := true;
          root :=
            {| default :=
                 fold_left (fun b k => delete (bytes_of_string k) b) keys
                   (default (root t));
               replication := replication (root t) |} |}.
Proof.
  revert t. induction keys as [|k rest IH]; intros [w [dflt repl]] Hw;
    simpl in *; subst.
  - reflexivity.
  - unfold Delete. cbn. now rewrite IH.
Qed.

Lemma DeleteExtraKeys_between_eq (between : DB -> DB) (d : Database)
    (isExtra : string -> bool) :
  DeleteExtraKeys_between between d isExtra =
    (None,
     with_db d
       {| default :=
            fold_left (fun b k => delete (bytes_of_string k) b)
              (fst (collectExtraKeys (db d) isExtra))
              (default (between (db d)));
          replication := replication (between (db d)) |}).
Proof.
  unfold DeleteExtraKeys_between. rewrite collectExtraKeys_eq.
  unfold Update. now rewrite deleteKeys_eq.
Qed.

Lemma sorted_deletes (keys : list string) (b : bucket) :
  sorted b = true ->
  sorted (fold_left (fun b k => delete (bytes_of_string k) b) keys b) = true.
Proof.
  revert b. induction keys as [|k rest IH]; intros b Hs; simpl; auto.
  apply IH. now apply sorted_delete.
Qed.

Lemma get_deletes (keys : list string) (key : bytes) (b : bucket) :
  sorted b = true ->
  get key (fold_left (fun b k => delete (bytes_of_string k) b) keys b) =
    if existsb (fun k => bytes_Equal (bytes_of_string k) key) keys
    then None else get key b.
Proof.
  revert b. induction keys as [|k rest IH]; intros b Hs; simpl; auto.
  rewrite IH by now apply sorted_delete.
  destruct (bytes_Equal (bytes_of_string k) key) eqn:E; simpl.
  - apply bytes_Equal_true in E. subst.
    rewrite get_delete_same by assumption.
    now destruct (existsb _ rest).
  - apply bytes_Equal_false in E.
    now rewrite get_delete_other.
Qed.

End Calls.

(* ================================================================= *)
(** ** Key order is kept by every call *)

Section WellFormed.

Import bolt db.

Lemma well_formed_SetKey (d : Database) (k : string) (v : bytes) :
  well_formed d -> well_formed (snd (SetKey d k v)).
Proof.
  intros [Hp Ho].
  destruct (SetKey_cases d k v) as [(_ & _ & ->) | [e ->]]; simpl.
  - split; apply sorted_put; assumption.
  - split; assumption.
Qed.

Lemma well_formed_DeleteReplicationKey (d : Database) (k v : bytes) :
  well_formed d -> well_formed (snd (DeleteReplicationKey d k v)).
Proof.
  intros [Hp Ho]. rewrite DeleteReplicationKey_cases.
  destruct (get k (outbox d)) as [v'|]; [destruct (bytes_Equal v' v)|];
    simpl; split; auto.
  now apply sorted_delete.
Qed.

Lemma well_formed_DeleteExtraKeys (d : Database) (isExtra : string -> bool) :
  well_formed d -> well_formed (snd (DeleteExtraKeys d isExtra)).
Proof.
  intros [Hp Ho]. unfold DeleteExtraKeys.
  rewrite DeleteExtraKeys_between_eq. simpl. split; auto.
  now apply sorted_deletes.
Qed.

Lemma well_formed_exec (d : Database) (c : call) :
  well_formed d -> well_formed (exec d c).
Proof.
  destruct c; simpl; auto using well_formed_SetKey,
    well_formed_DeleteReplicationKey, well_formed_DeleteExtraKeys.
Qed.

Lemma well_formed_execs (cs : list call) (d : Database) :
  well_formed d -> well_formed (execs d cs).
Proof.
  revert d. induction cs as [|c cs IH]; intros d Hd; simpl; auto.
  apply IH. now apply well_formed_exec.
Qed.

Lemma well_formed_opened (mode : bool) : well_formed (opened mode).
Proof. split; reflexivity. Qed.

(** [NewDatabase] on a file with key-sorted buckets gives a handle with
    key-sorted buckets. *)
Lemma well_formed_NewDatabase (f : file) (mode : bool) (d : Database) :
  file_sorted f ->
  NewDatabase (Ok f) mode = Ok d ->
  well_formed d.
Proof.
  intros [Hd Hr] Hopen. inversion Hopen; subst; clear Hopen.
  unfold well_formed, primary, outbox. simpl. split.
  - destruct (file_default f) as [b|]; simpl; auto.
  - destruct (file_replication f) as [b|]; simpl; auto.
Qed.

(** A pending outbox entry outlives every call that neither sets its key
    nor acknowledges it. *)
Lemma pending_exec (d : Database) (key v : bytes) (c : call) :
  well_formed d ->
  get key (outbox d) = Some v ->
  sets key c = false ->
  acknowledges key v c = false ->
  get key (outbox (exec d c)) = Some v.
Proof.
  intros [Hp Ho] Hget Hset Hack. destruct c as [k' v'| | |k' v'|isExtra];
    simpl in *; auto.
  - destruct (SetKey_cases d k' v') as [(_ & _ & ->) | [e ->]]; simpl; auto.
    unfold outbox. simpl. rewrite get_put_other; auto.
    now apply bytes_Equal_false.
  - rewrite DeleteReplicationKey_cases.
    destruct (get k' (outbox d)) as [v''|] eqn:Hk'; auto.
    destruct (bytes_Equal v'' v') eqn:Hv; auto.
    unfold outbox. simpl. rewrite get_delete_other; auto.
    intros ->. apply bytes_Equal_true in Hv. subst v''.
    rewrite bytes_Equal_refl in Hack. simpl in Hack.
    apply bytes_Equal_false in Hack. congruence.
  - unfold DeleteExtraKeys. now rewrite DeleteExtraKeys_between_eq.
Qed.

Lemma pending_execs (cs : list call) (d : Database) (key v : bytes) :
  well_formed d ->
  get key (outbox d) = Some v ->
  Forall (fun c => sets key c = false /\ acknowledges key v c = false) cs ->
  get key (outbox (execs d cs)) = Some v.
Proof.
  revert d. induction cs as [|c cs IH]; intros d Hd Hget Hall; simpl; auto.
  inversion Hall as [|? ? [Hs Ha] Hrest]; subst.
  apply IH; auto using well_formed_exec, pending_exec.
Qed.

(** A primary value outlives every call that does not write its key. *)
Lemma stored_exec (d : Database) (key v : bytes) (c : call) :
  well_formed d ->
  get key (primary d) = Some v ->
  writes_primary key c = false ->
  get key (primary (exec d c)) = Some v.
Proof.
  intros [Hp Ho] Hget Hw. destruct c as [k' v'| | |k' v'|isExtra];
    simpl in *; auto.
  - destruct (SetKey_cases d k' v') as [(_ & _ & ->) | [e ->]]; simpl; auto.
    unfold primary. simpl. rewrite get_put_other; auto.
    now apply bytes_Equal_false.
  - rewrite DeleteReplicationKey_cases.
    destruct (get k' (outbox d)) as [v''|]; auto.
    destruct (bytes_Equal v'' v'); auto.
  - unfold DeleteExtraKeys. rewrite DeleteExtraKeys_between_eq.
    unfold primary. simpl. rewrite get_deletes by assumption.
    rewrite collectExtraKeys_eq. simpl.
    destruct (existsb _ _) eqn:Hex; auto.
    apply existsb_exists in Hex as (ks & Hin & Heq).
    apply filter_In in Hin as [_ Hextra].
    apply bytes_Equal_true in Heq. subst key.
    unfold string_of_bytes, bytes_of_string in Hw.
    rewrite string_of_list_byte_of_string in Hw. congruence.
Qed.

Lemma stored_execs (cs : list call) (d : Database) (key v : bytes) :
  well_formed d ->
  get key (primary d) = Some v ->
  Forall (fun c => writes_primary key c = false) cs ->
  get key (primary (execs d cs)) = Some v.
Proof.
  revert d. induction cs as [|c cs IH]; intros d Hd Hget Hall; simpl; auto.
  inversion Hall; subst.
  apply IH; auto using well_formed_exec, stored_exec.
Qed.

End WellFormed.

(* ================================================================= *)
(** ** The storage engine contract *)

Section Engine.

Import bolt db.

(** Scenario A of the specification, run on a new file. *)
Example scenario_A :
  let v1 := bytes_of_string "v1" in
  let alice := bytes_of_string "alice" in
  let (e1, d1) := SetKey (opened false) "alice" v1 in
  let peek1 := GetNextForReplication d1 in
  let (e2, d2) := DeleteReplicationKey d1 alice v1 in
  let peek2 := GetNextForReplication d2 in
  e1 = None /\ peek1 = (Slice Heap alice, Slice Heap v1, None) /\
  e2 = None /\ peek2 = (nilSlice, nilSlice, None).
Proof. vm_compute. repeat split. Qed.

(** Scenario C of the specification. *)
Example scenario_C :
  let v1 := bytes_of_string "v1" in
  let v2 := bytes_of_string "v2" in
  let k := bytes_of_string "k" in
  let d1 := snd (SetKey (opened false) "k" v1) in
  let d2 := snd (SetKey d1 "k" v2) in
  DeleteReplicationKey d2 k v1 = (Some Conflict, d2) /\
  outbox d2 = [(k, v2)].
Proof. vm_compute. split; reflexivity. Qed.

(** C1.  On a handle with key-sorted buckets, [SetKey d k v] either
    succeeds and then holds [v] for [k] in the primary bucket and in the
    outbox, the outbox having exactly one pair for [k], or fails and
    leaves the handle as it was.  After a success the outbox keeps the
    pair [(k, v)], and only that pair for [k], through every sequence of
    calls that neither sets [k] again nor acknowledges [(k, v)]; and a
    later successful [SetKey] of [v2] on [k] leaves exactly one outbox
    pair for [k], holding [v2]. *)
Theorem SetKey_outbox_entry (d : Database) (k : string) (v : bytes) :
  well_formed d ->
  let key := bytes_of_string k in
  let d1 := snd (SetKey d k v) in
  (fst (SetKey d k v) = None /\
     get key (primary d1) = Some v /\
     get key (outbox d1) = Some v /\
     entries key (outbox d1) = 1
   \/ fst (SetKey d k v) <> None /\ d1 = d)
  /\
  (fst (SetKey d k v) = None ->
   forall cs : list call,
     Forall (fun c => sets key c = false /\ acknowledges key v c = false)
       cs ->
     let d2 := execs d1 cs in
     get key (outbox d2) = Some v /\
     entries key (outbox d2) = 1 /\
     forall v2 : bytes,
       fst (SetKey d2 k v2) = None ->
       get key (outbox (snd (SetKey d2 k v2))) = Some v2 /\
       entries key (outbox (snd (SetKey d2 k v2))) = 1).
Proof.
  intros Hwf key d1.
  pose proof (well_formed_SetKey d k v Hwf) as Hwf1. fold d1 in Hwf1.
  assert (Hafter : forall (x : Database) (w : bytes),
             well_formed x -> fst (SetKey x k w) = None ->
             get key (primary (snd (SetKey x k w))) = Some w /\
             get key (outbox (snd (SetKey x k w))) = Some w /\
             entries key (outbox (snd (SetKey x k w))) = 1).
  { intros x w Hx Hok.
    pose proof (well_formed_SetKey x k w Hx) as [_ Hso].
    apply SetKey_success in Hok as [_ Heq].
    assert (Hg : get key (outbox (snd (SetKey x k w))) = Some w).
    { rewrite Heq. unfold outbox. simpl. apply get_put_same. }
    repeat split; auto.
    - rewrite Heq. unfold primary. simpl. apply get_put_same.
    - rewrite entries_get by assumption. now rewrite Hg. }
  split.
  - destruct (SetKey_cases d k v) as [(_ & _ & Heq) | [e Heq]].
    + left. assert (Hok : fst (SetKey d k v) = None) by now rewrite Heq.
      split; auto. now apply Hafter.
    + right. subst d1. rewrite Heq. simpl. split; auto. discriminate.
  - intros Hok cs Hcs d2.
    destruct (Hafter d v Hwf Hok) as (_ & Hout & _). fold d1 in Hout.
    pose proof (well_formed_execs cs d1 Hwf1) as Hwf2. fold d2 in Hwf2.
    assert (Hg2 : get key (outbox d2) = Some v)
      by now apply pending_execs.
    repeat split; auto.
    + destruct Hwf2 as [_ Hso]. rewrite entries_get by assumption.
      now rewrite Hg2.
    + now apply Hafter.
    + now apply Hafter.
Qed.

(** The theorem on the sample handle: ["bob"] is set again while other
    keys are written, read and acknowledged. *)
Lemma SetKey_outbox_entry_witness :
  well_formed sample /\
  fst (SetKey sample "bob" (bytes_of_string "v4")) = None /\
  let d2 :=
    execs (snd (SetKey sample "bob" (bytes_of_string "v4")))
      [ CallSetKey "dave" (bytes_of_string "v5");
        CallGetKey "bob";
        CallDeleteReplicationKey (bytes_of_string "alice")
          (bytes_of_string "v2") ] in
  get (bytes_of_string "bob") (outbox d2) = Some (bytes_of_string "v4") /\
  entries (bytes_of_string "bob") (outbox d2) = 1.
Proof.
  assert (Hwf : well_formed sample) by (split; reflexivity).
  assert (Hok : fst (SetKey sample "bob" (bytes_of_string "v4")) = None)
    by reflexivity.
  split; [exact Hwf|]. split; [exact Hok|].
  destruct (SetKey_outbox_entry sample "bob" (bytes_of_string "v4") Hwf)
    as [_ Hkeep].
  destruct (Hkeep Hok
              [ CallSetKey "dave" (bytes_of_string "v5");
                CallGetKey "bob";
                CallDeleteReplicationKey (bytes_of_string "alice")
                  (bytes_of_string "v2") ]) as (Hg & He & _).
  - repeat constructor.
  - split; assumption.
Defined.

(** C2.  [DeleteReplicationKey d k v] succeeds exactly when the outbox
    holds [(k, v)]; on success the pair is gone and nothing else has
    changed; with a pair for [k] of another value it fails with Conflict and
    leaves the handle as it was; with no pair for [k] it fails with
    NotFound and leaves the handle as it was. *)
Theorem DeleteReplicationKey_acknowledges (d : Database) (k v : bytes) :
  well_formed d ->
  let r := DeleteReplicationKey d k v in
  (fst r = None <-> get k (outbox d) = Some v) /\
  (fst r = None ->
     get k (outbox (snd r)) = None /\
     entries k (outbox (snd r)) = 0 /\
     (forall k', k' <> k -> get k' (outbox (snd r)) = get k' (outbox d)) /\
     primary (snd r) = primary d) /\
  (forall v', get k (outbox d) = Some v' -> v' <> v ->
     r = (Some Conflict, d)) /\
  (get k (outbox d) = None -> r = (Some NotFound, d)).
Proof.
  intros [Hp Ho] r. subst r. rewrite DeleteReplicationKey_cases.
  destruct (get k (outbox d)) as [v'|] eqn:Hget.
  - destruct (bytes_Equal v' v) eqn:Hv.
    + apply bytes_Equal_true in Hv. subst v'. simpl.
      assert (Hgone : get k (delete k (replication (db d))) = None)
        by now apply get_delete_same.
      repeat split; auto; try congruence.
      * unfold outbox. simpl.
        rewrite entries_get by now apply sorted_delete.
        now rewrite Hgone.
      * intros k' Hne. apply get_delete_other; auto.
    + apply bytes_Equal_false in Hv. simpl.
      repeat split; try congruence; try discriminate.
  - simpl. repeat split; try congruence; try discriminate.
Qed.

Lemma DeleteReplicationKey_acknowledges_witness :
  well_formed sample /\
  get (bytes_of_string "alice") (outbox sample) = Some (bytes_of_string "v2") /\
  fst (DeleteReplicationKey sample (bytes_of_string "alice")
         (bytes_of_string "v2")) = None /\
  DeleteReplicationKey sample (bytes_of_string "alice")
    (bytes_of_string "v1") = (Some Conflict, sample) /\
  DeleteReplicationKey sample (bytes_of_string "bob")
    (bytes_of_string "v1") = (Some NotFound, sample).
Proof.
  assert (Hwf : well_formed sample) by (split; reflexivity).
  split; [exact Hwf|]. split; [reflexivity|].
  split; [|split].
  - apply (DeleteReplicationKey_acknowledges sample
             (bytes_of_string "alice") (bytes_of_string "v2") Hwf).
    reflexivity.
  - apply (DeleteReplicationKey_acknowledges sample
             (bytes_of_string "alice") (bytes_of_string "v1") Hwf)
      with (v' := bytes_of_string "v2").
    + reflexivity.
    + discriminate.
  - apply (DeleteReplicationKey_acknowledges sample
             (bytes_of_string "bob") (bytes_of_string "v1") Hwf).
    reflexivity.
Defined.

(** C3.  After a successful [SetKey d k v], and after any further calls
    that do not write [k] in the primary bucket, [GetKey] on [k] returns a
    slice holding [v] and no error. *)
Theorem SetKey_GetKey_roundtrip (d : Database) (k : string) (v : bytes)
    (cs : list call) :
  well_formed d ->
  fst (SetKey d k v) = None ->
  Forall (fun c => writes_primary (bytes_of_string k) c = false) cs ->
  GetKey (execs (snd (SetKey d k v)) cs) k = (Slice TxPage v, None).
Proof.
  intros Hwf Hok Hcs.
  assert (Hget : get (bytes_of_string k)
                   (primary (execs (snd (SetKey d k v)) cs)) = Some v).
  { apply stored_execs; auto using well_formed_SetKey.
    apply SetKey_success in Hok as [_ ->].
    unfold primary. simpl. apply get_put_same. }
  unfold GetKey, View, Get. cbn [Bucket root].
  unfold primary in Hget. now rewrite Hget.
Qed.

Lemma SetKey_GetKey_roundtrip_witness :
  well_formed sample /\
  fst (SetKey sample "k" (bytes_of_string "v")) = None /\
  GetKey
    (execs (snd (SetKey sample "k" (bytes_of_string "v")))
       [ CallSetKey "j" (bytes_of_string "w");
         CallDeleteReplicationKey (bytes_of_string "k") (bytes_of_string "v");
         CallDeleteExtraKeys (fun s => String.eqb s "alice") ])
    "k" = (Slice TxPage (bytes_of_string "v"), None).
Proof.
  assert (Hwf : well_formed sample) by (split; reflexivity).
  split; [exact Hwf|]. split; [reflexivity|].
  apply (SetKey_GetKey_roundtrip sample "k" (bytes_of_string "v")).
  - exact Hwf.
  - reflexivity.
  - repeat constructor.
Defined.

(** C4.  With a non-empty outbox [GetNextForReplication] returns, without
    error, a pair of the outbox whose key is below the key of every other
    pair, both slices being fresh heap copies; with an empty outbox it
    returns [nil], [nil] and no error. *)
Theorem GetNextForReplication_least (d : Database) :
  well_formed d ->
  (outbox d = [] -> GetNextForReplication d = (nilSlice, nilSlice, None)) /\
  (outbox d <> [] ->
   exists k v : bytes,
     GetNextForReplication d = (Slice Heap k, Slice Heap v, None) /\
     In (k, v) (outbox d) /\
     forall k' v' : bytes,
       In (k', v') (outbox d) -> (k', v') = (k, v) \/ bytes_lt k k').
Proof.
  intros [_ Ho]. unfold GetNextForReplication, View, Cursor_First, outbox in *.
  cbn [Bucket root].
  destruct (replication (db d)) as [|[k v] rest] eqn:Hout.
  - split; [reflexivity | congruence].
  - split; [discriminate|]. intros _. exists k, v.
    unfold copyByteSlice. rewrite !copy_make.
    split; [reflexivity|]. split; [now left|].
    intros k' v' [Heq | Hin]; [left; congruence|]. right.
    pose proof (sorted_tail_above k v rest Ho) as Hall.
    rewrite Forall_forall in Hall. apply (Hall (k', v') Hin).
Qed.

Lemma GetNextForReplication_least_witness :
  well_formed sample /\
  outbox sample <> [] /\
  exists k v : bytes,
    GetNextForReplication sample = (Slice Heap k, Slice Heap v, None) /\
    In (k, v) (outbox sample) /\
    forall k' v' : bytes,
      In (k', v') (outbox sample) -> (k', v') = (k, v) \/ bytes_lt k k'.
Proof.
  assert (Hwf : well_formed sample) by (split; reflexivity).
  assert (Hne : outbox sample <> []) by discriminate.
  split; [exact Hwf|]. split; [exact Hne|].
  exact (proj2 (GetNextForReplication_least sample Hwf) Hne).
Defined.

(** The keys the scan of [DeleteExtraKeys] collects are the keys of the
    primary bucket that [isExtra] accepts. *)
Lemma collected_iff (isExtra : string -> bool) (b : bucket) (key : bytes) :
  sorted b = true ->
  existsb (fun k => bytes_Equal (bytes_of_string k) key)
    (filter isExtra (map (fun kv => string_of_bytes (fst kv)) b)) = true <->
  isExtra (string_of_bytes key) = true /\ get key b <> None.
Proof.
  intros Hs. rewrite existsb_exists. split.
  - intros (ks & Hin & Heq). apply filter_In in Hin as [Hin Hex].
    apply in_map_iff in Hin as ([k0 v0] & Hks & Hin). simpl in Hks.
    apply bytes_Equal_true in Heq. subst ks key.
    rewrite bytes_string_bytes. split; auto.
    now rewrite (In_get k0 v0 b Hs Hin).
  - intros [Hex Hget]. destruct (get key b) as [v0|] eqn:Hg; [|congruence].
    exists (string_of_bytes key). split.
    + apply filter_In. split; auto.
      apply in_map_iff. exists (key, v0). split; auto. now apply get_In.
    + rewrite bytes_string_bytes. apply bytes_Equal_refl.
Qed.

(** C5.  [DeleteExtraKeys] collects, in its read transaction, the keys of
    the primary bucket that [isExtra] accepts, and its write transaction
    succeeds and deletes those keys and no other: a key that was collected
    is gone, every other key has the value the write transaction found.
    When nothing else writes between the two transactions, a key is gone if
    [isExtra] accepts it and keeps its value otherwise. *)
Theorem DeleteExtraKeys_exact (between : DB -> DB) (d : Database)
    (isExtra : string -> bool) :
  well_formed d ->
  sorted (default (between (db d))) = true ->
  let r := DeleteExtraKeys_between between d isExtra in
  collectExtraKeys (db d) isExtra =
    (filter isExtra (map (fun kv => string_of_bytes (fst kv)) (primary d)),
     None) /\
  fst r = None /\
  (forall key : bytes,
     get key (primary (snd r)) =
       match get key (primary d) with
       | Some _ =>
           if isExtra (string_of_bytes key) then None
           else get key (default (between (db d)))
       | None => get key (default (between (db d)))
       end) /\
  (forall key : bytes,
     get key (primary (snd (DeleteExtraKeys d isExtra))) =
       if isExtra (string_of_bytes key) then None else get key (primary d)).
Proof.
  intros [Hp Ho] Hb r.
  assert (Hgen : forall (f : DB -> DB) (key : bytes),
             sorted (default (f (db d))) = true ->
             get key (primary (snd (DeleteExtraKeys_between f d isExtra))) =
               match get key (primary d) with
               | Some _ =>
                   if isExtra (string_of_bytes key) then None
                   else get key (default (f (db d)))
               | None => get key (default (f (db d)))
               end).
  { intros f key Hf. rewrite DeleteExtraKeys_between_eq.
    unfold primary. simpl. rewrite get_deletes by assumption.
    rewrite collectExtraKeys_eq. simpl.
    pose proof (collected_iff isExtra (default (db d)) key Hp) as Hiff.
    destruct (existsb _ _).
    - destruct Hiff as [[Hex Hget] _]; auto. rewrite Hex.
      now destruct (get key (default (db d))).
    - destruct (get key (default (db d))) eqn:Hg; auto.
      destruct (isExtra (string_of_bytes key)) eqn:Hex; auto.
      destruct Hiff as [_ Hback]. discriminate Hback. split; congruence. }
  split; [apply collectExtraKeys_eq|].
  split; [subst r; now rewrite DeleteExtraKeys_between_eq|].
  split; [intros key; now apply Hgen|].
  intros key. unfold DeleteExtraKeys. rewrite (Hgen (fun b => b) key Hp).
  unfold primary.
  destruct (get key (default (db d))); auto.
  now destruct (isExtra (string_of_bytes key)).
Qed.

(** The clean-up on the sample handle while another goroutine writes
    ["alice"] again between the scan and the deletion. *)
Lemma DeleteExtraKeys_exact_witness :
  let between :=
    fun b : DB =>
      {| default := put (bytes_of_string "alice") (bytes_of_string "v9")
                      (default b);
         replication := replication b |} in
  let isExtra := fun s : string => negb (String.eqb s "bob") in
  well_formed sample /\
  sorted (default (between (db sample))) = true /\
  fst (DeleteExtraKeys_between between sample isExtra) = None /\
  forall key : bytes,
    get key (primary (snd (DeleteExtraKeys sample isExtra))) =
      if isExtra (string_of_bytes key) then None
      else get key (primary sample).
Proof.
  intros between isExtra.
  assert (Hwf : well_formed sample) by (split; reflexivity).
  assert (Hb : sorted (default (between (db sample))) = true)
    by reflexivity.
  split; [exact Hwf|]. split; [exact Hb|].
  destruct (DeleteExtraKeys_exact between sample isExtra Hwf Hb)
    as (_ & Hok & _ & Hseq).
  split; [exact Hok | exact Hseq].
Defined.

(** C9.  [DeleteExtraKeys] leaves the outbox as it is, whatever [isExtra]
    accepts: every pair of the outbox is still there with its value, also
    for keys deleted from the primary bucket. *)
Theorem DeleteExtraKeys_keeps_outbox (d : Database)
    (isExtra : string -> bool) :
  outbox (snd (DeleteExtraKeys d isExtra)) = outbox d /\
  (forall k v : bytes,
     In (k, v) (outbox d) -> In (k, v) (outbox (snd (DeleteExtraKeys d isExtra))))
  /\
  (forall k : bytes,
     get k (outbox (snd (DeleteExtraKeys d isExtra))) = get k (outbox d)).
Proof.
  assert (Heq : outbox (snd (DeleteExtraKeys d isExtra)) = outbox d).
  { unfold DeleteExtraKeys. now rewrite DeleteExtraKeys_between_eq. }
  rewrite Heq. auto.
Qed.

Lemma DeleteExtraKeys_keeps_outbox_witness :
  outbox (snd (DeleteExtraKeys sample (fun _ => true))) = outbox sample.
Proof.
  exact (proj1 (DeleteExtraKeys_keeps_outbox sample (fun _ => true))).
Defined.

(** The outbox of the sample handle after every primary key was removed. *)
Example cleanup_keeps_outbox :
  let d := snd (DeleteExtraKeys sample (fun _ => true)) in
  primary d = [] /\
  outbox d = [ (bytes_of_string "alice", bytes_of_string "v2");
               (bytes_of_string "carol", bytes_of_string "v3") ].
Proof. vm_compute. split; reflexivity. Qed.

(** C6.  On a read-only handle [SetKey] fails with ReadOnlyError and
    returns the handle as it was, both buckets included; [GetKey] on that
    handle returns no error, and [nil] for a key the primary bucket
    lacks. *)
Theorem read_only_handle (d : Database) (k : string) (v : bytes) :
  readOnly d = true ->
  SetKey d k v = (Some ReadOnlyError, d) /\
  primary (snd (SetKey d k v)) = primary d /\
  outbox (snd (SetKey d k v)) = outbox d /\
  forall k' : string,
    snd (GetKey (snd (SetKey d k v)) k') = None /\
    (get (bytes_of_string k') (primary d) = None ->
     GetKey (snd (SetKey d k v)) k' = (nilSlice, None)).
Proof.
  intros Hro.
  assert (Heq : SetKey d k v = (Some ReadOnlyError, d)).
  { unfold SetKey. now rewrite Hro. }
  rewrite Heq. simpl. repeat split; auto.
  intros Hget. unfold GetKey, View, Get. cbn [Bucket root].
  unfold primary in Hget. now rewrite Hget.
Qed.

(** Scenario B of the specification. *)
Lemma read_only_handle_witness :
  readOnly (opened true) = true /\
  SetKey (opened true) "k" (bytes_of_string "v")
    = (Some ReadOnlyError, opened true) /\
  GetKey (snd (SetKey (opened true) "k" (bytes_of_string "v"))) "k"
    = (nilSlice, None).
Proof.
  split; [reflexivity|].
  destruct (read_only_handle (opened true) "k" (bytes_of_string "v")
              eq_refl) as (Hset & _ & _ & Hget).
  split; [exact Hset|].
  apply (proj2 (Hget "k")). reflexivity.
Defined.

(** Every reachable handle has key-sorted buckets. *)
Lemma reachable_well_formed (d : Database) :
  reachable d -> well_formed d.
Proof.
  induction 1 as [mode d Hopen | d c _ IH _].
  - inversion Hopen; subst. split; reflexivity.
  - now apply well_formed_exec.
Qed.

(** C10.  On every handle reached from a new file by [SetKey], [GetKey],
    [GetNextForReplication] and [DeleteReplicationKey], each key of the
    outbox is a key of the primary bucket with the same value. *)
Theorem outbox_within_primary (d : Database) :
  reachable d ->
  forall k v : bytes,
    In (k, v) (outbox d) ->
    In (k, v) (primary d) /\ get k (primary d) = Some v.
Proof.
  intros Hreach.
  assert (Hinv : forall k v, get k (outbox d) = Some v ->
                             get k (primary d) = Some v).
  { induction Hreach as [mode d Hopen | d c Hreach IH Hc].
    - inversion Hopen; subst. discriminate.
    - pose proof (reachable_well_formed d Hreach) as [Hp Ho].
      intros k v. destruct c as [k' v'| | |k' v'|isExtra]; simpl;
        try discriminate; auto.
      + destruct (SetKey_cases d k' v') as [(_ & _ & ->) | [e ->]];
          simpl; auto.
        unfold outbox, primary. simpl.
        destruct (list_eq_dec byte_eq_dec (bytes_of_string k') k)
          as [<- | Hne].
        * now rewrite !get_put_same.
        * rewrite !get_put_other by assumption. apply IH.
      + rewrite DeleteReplicationKey_cases.
        destruct (get k' (outbox d)) as [v''|]; auto.
        destruct (bytes_Equal v'' v'); auto.
        unfold outbox, primary. simpl.
        destruct (list_eq_dec byte_eq_dec k' k) as [<- | Hne].
        * now rewrite get_delete_same.
        * rewrite get_delete_other by assumption. apply IH. }
  intros k v Hin.
  destruct (reachable_well_formed d Hreach) as [_ Ho].
  pose proof (Hinv k v (In_get k v _ Ho Hin)) as Hget.
  split; [now apply get_In | exact Hget].
Qed.

Lemma outbox_within_primary_witness :
  reachable sample /\
  forall k v : bytes,
    In (k, v) (outbox sample) ->
    In (k, v) (primary sample) /\ get k (primary sample) = Some v.
Proof.
  assert (Hreach : reachable sample).
  { unfold sample, execs. cbn [fold_left].
    repeat (apply reach_call; [|reflexivity]).
    apply reach_open with (mode := false). reflexivity. }
  split; [exact Hreach|].
  exact (outbox_within_primary sample Hreach).
Defined.

End Engine.

(* ================================================================= *)
(** ** Key ownership *)

Section Sharding.

Import config.

Variable hash : bytes -> N.

Lemma build_table (l : list Shard) (self : string) (t : ShardTable) :
  build l self = Ok t ->
  shards t = l /\ count t = N.of_nat (List.length l) /\ (0 < count t)%N.
Proof.
  unfold build. destruct (find_self l self) as [s|] eqn:Hfind;
    [|discriminate].
  destruct (contiguous l && _ && _); [|discriminate].
  intros H. inversion H; subst; clear H. simpl. repeat split.
  destruct l as [|x l]; [discriminate Hfind|]. simpl List.length. lia.
Qed.

(** C7.  [ownerIndex] is the hash of the key bytes modulo the number of
    shards: two tables built from the same shard list, in processes that
    may differ in the shard they serve, give every key the same owner, and
    that owner is an index of the list. *)
Theorem ownerIndex_deterministic (l : list Shard) (self1 self2 : string)
    (t1 t2 : ShardTable) (key : bytes) :
  build l self1 = Ok t1 ->
  build l self2 = Ok t2 ->
  ownerIndex hash t1 key = ownerIndex hash t2 key /\
  ownerIndex hash t1 key = (hash key mod N.of_nat (List.length l))%N /\
  (ownerIndex hash t1 key < N.of_nat (List.length l))%N.
Proof.
  intros H1 H2.
  apply build_table in H1 as (_ & Hc1 & Hpos).
  apply build_table in H2 as (_ & Hc2 & _).
  unfold ownerIndex. rewrite Hc1, Hc2. repeat split.
  rewrite Hc1 in Hpos. apply N.mod_lt. lia.
Qed.

End Sharding.

Lemma ownerIndex_deterministic_witness :
  exists t1 t2 : config.ShardTable,
    config.build config.three_shards "Xian" = Ok t1 /\
    config.build config.three_shards "Beijing" = Ok t2 /\
    config.ownerIndex config.fnv1_64 t1 (bytes_of_string "alice") =
    config.ownerIndex config.fnv1_64 t2 (bytes_of_string "alice").
Proof.
  eexists. eexists.
  split; [reflexivity|]. split; [reflexivity|].
  apply (ownerIndex_deterministic config.fnv1_64 config.three_shards
           "Xian" "Beijing" _ _ (bytes_of_string "alice") eq_refl eq_refl).
Defined.

(* ================================================================= *)
(** ** Process start-up *)

Section Startup.

Import main.

(** A flag the command line does not name keeps the value it had. *)
Lemma Parse_absent (name : string) (args : list (string * string)) :
  absent name args ->
  forall f0 f : flags,
    Parse args f0 = Some f ->
    (name = "db-location" -> dbLocation f = dbLocation f0) /\
    (name = "http-addr" -> httpAddr f = httpAddr f0) /\
    (name = "config-file" -> configFileName f = configFileName f0) /\
    (name = "shard" -> shard f = shard f0).
Proof.
  unfold absent. induction args as [|[n v] rest IH]; intros Habs f0 f Hp.
  - inversion Hp; subst. auto.
  - simpl in Habs, Hp.
    assert (Hn : n <> name) by tauto.
    assert (Hrest : ~ In name (map fst rest)) by tauto.
    destruct (set f0 n v) as [f'|] eqn:Hset; [|discriminate].
    destruct (IH Hrest f' f Hp) as (H1 & H2 & H3 & H4).
    unfold set in Hset.
    destruct (String.eqb n "db-location") eqn:E1;
      [apply String.eqb_eq in E1; inversion Hset; subst; simpl in *;
       repeat split; intros; subst; auto; congruence|].
    destruct (String.eqb n "http-addr") eqn:E2;
      [apply String.eqb_eq in E2; inversion Hset; subst; simpl in *;
       repeat split; intros; subst; auto; congruence|].
    destruct (String.eqb n "config-file") eqn:E3;
      [apply String.eqb_eq in E3; inversion Hset; subst; simpl in *;
       repeat split; intros; subst; auto; congruence|].
    destruct (String.eqb n "shard") eqn:E4;
      [apply String.eqb_eq in E4; inversion Hset; subst; simpl in *;
       repeat split; intros; subst; auto; congruence|].
    discriminate.
Qed.

(** C8 as stated fails: without [-config-file] the process reads
    [sharding.toml] and goes on to serve. *)
Lemma absent_config_file_serves :
  absent "config-file" args_without_config /\
  serves (start files_ParseFile files_Open false args_without_config) = true.
Proof.
  split.
  - unfold absent, args_without_config. simpl.
    intros [H | [H | [H | []]]]; discriminate H.
  - reflexivity.
Qed.

(** C8, amended.  When the command line names no listen address, no
    storage path or no shard, the process stops in [flag.Parse] or in the
    [log.Fatal] of [init] and never serves.  A command line that names no
    configuration file is read with [sharding.toml] in its place. *)
Theorem required_flags_fatal (ParseFile : string -> result config.Config)
    (Open : string -> result bolt.file) (mode : bool)
    (args : list (string * string)) :
  (absent "http-addr" args \/ absent "db-location" args \/
   absent "shard" args ->
   serves (start ParseFile Open mode args) = false /\
   (start ParseFile Open mode args = Usage \/
    exists msg : string, start ParseFile Open mode args = Fatal msg)) /\
  (absent "config-file" args ->
   forall f : flags,
     Parse args declared = Some f -> configFileName f = "sharding.toml").
Proof.
  split.
  - intros Habs.
    assert (Hgoal : start ParseFile Open mode args = Usage \/
                    exists msg, start ParseFile Open mode args = Fatal msg).
    { unfold start. destruct (Parse args declared) as [f|] eqn:Hp; auto.
      right. unfold init.
      destruct Habs as [Habs | [Habs | Habs]];
        destruct (Parse_absent _ args Habs declared f Hp)
          as (H1 & H2 & H3 & H4).
      + rewrite (H2 eq_refl). simpl. eauto.
      + rewrite (H1 eq_refl). simpl.
        destruct (String.eqb (httpAddr f) ""); eauto.
      + rewrite (H4 eq_refl). simpl.
        destruct (String.eqb (httpAddr f) ""); eauto.
        destruct (String.eqb (dbLocation f) ""); eauto. }
    split; auto.
    destruct Hgoal as [-> | [msg ->]]; reflexivity.
  - intros Habs f Hp.
    destruct (Parse_absent _ args Habs declared f Hp) as (_ & _ & H3 & _).
    now rewrite (H3 eq_refl).
Qed.

Lemma required_flags_fatal_witness :
  absent "shard" args_without_shard /\
  serves (start files_ParseFile files_Open false args_without_shard) = false.
Proof.
  assert (Habs : absent "shard" args_without_shard).
  { unfold absent, args_without_shard. simpl.
    intros [H | [H | [H | []]]]; discriminate H. }
  split; [exact Habs|].
  apply (required_flags_fatal files_ParseFile files_Open false
           args_without_shard).
  right. right. exact Habs.
Defined.

End Startup.

(* ================================================================= *)
(** ** Algebra of the bucket operations *)

Section BucketAlgebra.

Import bolt db.

Lemma put_put_same (k v1 v2 : bytes) (b : bucket) :
  put k v2 (put k v1 b) = put k v2 b.
Proof.
  induction b as [|[h vh] rest IH]; simpl.
  - now rewrite bytes_Compare_refl.
  - destruct (bytes_Compare k h) eqn:E; simpl.
    + now rewrite bytes_Compare_refl.
    + now rewrite bytes_Compare_refl.
    + now rewrite E, IH.
Qed.

Lemma delete_put_same (k v : bytes) (b : bucket) :
  delete k (put k v b) = delete k b.
Proof.
  induction b as [|[h vh] rest IH]; simpl.
  - now rewrite bytes_Compare_refl.
  - destruct (bytes_Compare k h) eqn:E; simpl.
    + now rewrite bytes_Compare_refl.
    + now rewrite bytes_Compare_refl.
    + now rewrite E, IH.
Qed.

Lemma delete_absent (k : bytes) (b : bucket) :
  get k b = None -> delete k b = b.
Proof.
  induction b as [|[h vh] rest IH]; simpl; auto.
  destruct (bytes_Compare k h); try discriminate; auto.
  intros H. now rewrite IH.
Qed.

(** Two key-sorted buckets that answer every lookup alike are equal. *)
Lemma sorted_ext (a b : bucket) :
  sorted a = true -> sorted b = true ->
  (forall k, get k a = get k b) -> a = b.
Proof.
  revert b. induction a as [|[h1 v1] r1 IH]; intros [|[h2 v2] r2] Ha Hb Hext;
    auto.
  - specialize (Hext h2). simpl in Hext.
    rewrite bytes_Compare_refl in Hext. discriminate.
  - specialize (Hext h1). simpl in Hext.
    rewrite bytes_Compare_refl in Hext. discriminate.
  - apply sorted_cons in Ha as [Ha1 Ha2].
    apply sorted_cons in Hb as [Hb1 Hb2].
    destruct (bytes_Compare h1 h2) eqn:E.
    + apply bytes_Compare_eq in E. subst h2.
      pose proof (Hext h1) as Hv. simpl in Hv.
      rewrite bytes_Compare_refl in Hv. inversion Hv; subst v2.
      f_equal. apply IH; auto. intros k.
      specialize (Hext k). simpl in Hext.
      destruct (bytes_Compare k h1) eqn:Ek; auto.
      * apply bytes_Compare_eq in Ek. subst k.
        now rewrite !above_get.
      * rewrite (above_get k r1), (above_get k r2); auto;
          now apply above_lt with h1.
    + specialize (Hext h1). simpl in Hext.
      rewrite bytes_Compare_refl, E in Hext. discriminate.
    + specialize (Hext h2). simpl in Hext.
      rewrite bytes_Compare_refl in Hext.
      apply bytes_lt_gt in E. unfold bytes_lt in E. rewrite E in Hext.
      discriminate.
Qed.

Lemma put_put_other (k1 k2 v1 v2 : bytes) (b : bucket) :
  sorted b = true -> k1 <> k2 ->
  put k1 v1 (put k2 v2 b) = put k2 v2 (put k1 v1 b).
Proof.
  intros Hs Hne. apply sorted_ext; auto using sorted_put.
  intros k.
  destruct (list_eq_dec byte_eq_dec k k1) as [-> | H1].
  - rewrite get_put_same, get_put_other by congruence.
    now rewrite get_put_same.
  - rewrite (get_put_other k1 k) by congruence.
    destruct (list_eq_dec byte_eq_dec k k2) as [-> | H2].
    + now rewrite !get_put_same.
    + now rewrite !get_put_other by congruence.
Qed.

Lemma within_limits_put (k v : bytes) (b : bucket) :
  accepts k v = true -> within_limits b -> within_limits (put k v b).
Proof.
  unfold within_limits. intros Hacc.
  induction b as [|[h vh] rest IH]; intros Hb; simpl.
  - constructor; auto.
  - inversion Hb; subst.
    destruct (bytes_Compare k h); constructor; auto.
Qed.

Lemma within_limits_delete (k : bytes) (b : bucket) :
  within_limits b -> within_limits (delete k b).
Proof.
  unfold within_limits.
  induction b as [|[h vh] rest IH]; intros Hb; simpl; auto.
  inversion Hb; subst.
  destruct (bytes_Compare k h); auto.
Qed.

Lemma within_limits_deletes (keys : list string) (b : bucket) :
  within_limits b ->
  within_limits
    (fold_left (fun b k => delete (bytes_of_string k) b) keys b).
Proof.
  revert b. induction keys as [|k rest IH]; intros b Hb; simpl; auto.
  apply IH. now apply within_limits_delete.
Qed.

End BucketAlgebra.

(* ================================================================= *)
(** ** Writes: errors, frame and composition *)

Section Writes.

Import bolt db.

Lemma accepts_iff (key value : bytes) :
  accepts key value = true <->
  key <> [] /\ (len key <= MaxKeySize)%N /\ (len value <= MaxValueSize)%N.
Proof.
  unfold accepts. rewrite !andb_true_iff, !negb_true_iff.
  rewrite N.eqb_neq, !N.ltb_ge. unfold len.
  destruct key as [|x key]; simpl List.length.
  - split; [intros [[H _] _]; now contradiction H | intros [H _]; congruence].
  - split; intros [[_ H1] H2] || intros [_ [H1 H2]]; repeat split;
      auto; try discriminate; lia.
Qed.

(** What [SetKey] returns and leaves, by the mode of the handle and the
    size checks. *)
Lemma SetKey_eq (d : Database) (k : string) (v : bytes) :
  (fst (SetKey d k v) = None <->
   readOnly d = false /\ accepts (bytes_of_string k) v = true) /\
  snd (SetKey d k v) =
    if negb (readOnly d) && accepts (bytes_of_string k) v
    then with_db d
           {| default := put (bytes_of_string k) v (default (db d));
              replication := put (bytes_of_string k) v (replication (db d)) |}
    else d.
Proof.
  destruct (SetKey_cases d k v) as [(Hro & Hacc & ->) | [e Heq]].
  - rewrite Hro, Hacc. simpl. tauto.
  - rewrite Heq. simpl. split.
    + split; [discriminate|]. intros [Hro Hacc].
      rewrite (SetKey_ok d k v Hro Hacc) in Heq. discriminate.
    + destruct (readOnly d) eqn:Hro; simpl; auto.
      destruct (accepts (bytes_of_string k) v) eqn:Hacc; auto.
      rewrite (SetKey_ok d k v Hro Hacc) in Heq. discriminate.
Qed.

(** X1.  [SetKey] succeeds exactly on a writable handle with a non-empty
    key of at most 32768 bytes and a value of at most 2^31 - 2 bytes; when
    it fails the handle is as before; the read-only error comes before the
    size errors, and an empty key on a writable handle is refused with
    bbolt's key-required error. *)
Theorem SetKey_succeeds_iff (d : Database) (k : string) (v : bytes) :
  (fst (SetKey d k v) = None <->
   readOnly d = false /\
   bytes_of_string k <> [] /\
   (len (bytes_of_string k) <= 32768)%N /\
   (len v <= 2147483646)%N) /\
  (fst (SetKey d k v) <> None -> snd (SetKey d k v) = d) /\
  (readOnly d = true -> fst (SetKey d k v) = Some ReadOnlyError) /\
  (readOnly d = false -> bytes_of_string k = [] ->
   fst (SetKey d k v) = Some ErrKeyRequired).
Proof.
  destruct (SetKey_eq d k v) as [Hiff Hsnd].
  split; [|split; [|split]].
  - rewrite Hiff, accepts_iff. reflexivity.
  - intros Hfail. rewrite Hsnd.
    destruct (readOnly d) eqn:Hro; simpl; auto.
    destruct (accepts (bytes_of_string k) v) eqn:Hacc; auto.
    contradiction Hfail. apply Hiff. auto.
  - intros Hro. unfold SetKey. now rewrite Hro.
  - intros Hro Hk. unfold SetKey, Update, Put. rewrite Hro, Hk. reflexivity.
Qed.

(** X2.  [SetKey] on [k] leaves every other key of both buckets, and the
    mode of the handle, as they were. *)
Theorem SetKey_frame (d : Database) (k : string) (v k' : bytes) :
  k' <> bytes_of_string k ->
  get k' (primary (snd (SetKey d k v))) = get k' (primary d) /\
  get k' (outbox (snd (SetKey d k v))) = get k' (outbox d) /\
  readOnly (snd (SetKey d k v)) = readOnly d.
Proof.
  intros Hne. destruct (SetKey_eq d k v) as [_ ->].
  destruct (negb (readOnly d) && accepts (bytes_of_string k) v); auto.
  unfold primary, outbox. simpl.
  rewrite !get_put_other by congruence. auto.
Qed.

Lemma SetKey_frame_witness :
  bytes_of_string "alice" <> bytes_of_string "bob" /\
  get (bytes_of_string "alice")
    (outbox (snd (SetKey sample "bob" (bytes_of_string "v7"))))
  = get (bytes_of_string "alice") (outbox sample).
Proof.
  assert (Hne : bytes_of_string "alice" <> bytes_of_string "bob")
    by discriminate.
  split; [exact Hne|].
  apply (SetKey_frame sample "bob" (bytes_of_string "v7")
           (bytes_of_string "alice") Hne).
Defined.

(** X3.  Setting a key to the value it was just set to changes nothing
    more: the second call returns what the first returned and leaves the
    handle the first left. *)
Theorem SetKey_idempotent (d : Database) (k : string) (v : bytes) :
  SetKey (snd (SetKey d k v)) k v = SetKey d k v.
Proof.
  destruct (SetKey_cases d k v) as [(Hro & Hacc & Heq) | [e Heq]].
  - rewrite Heq. simpl. rewrite SetKey_ok by auto.
    unfold with_db. simpl. now rewrite !put_put_same.
  - rewrite Heq. simpl. exact Heq.
Qed.

(** X4.  The last write wins: when [SetKey] of [v2] on [k] is accepted, it
    leaves the same handle after an earlier [SetKey] of [v1] on [k] as
    without it. *)
Theorem SetKey_last_write_wins (d : Database) (k : string) (v1 v2 : bytes) :
  fst (SetKey d k v2) = None ->
  SetKey (snd (SetKey d k v1)) k v2 = SetKey d k v2.
Proof.
  intros Hok. apply (proj1 (SetKey_eq d k v2)) in Hok as [Hro Hacc].
  rewrite (SetKey_ok d k v2 Hro Hacc).
  destruct (SetKey_cases d k v1) as [(_ & _ & Heq) | [e Heq]];
    rewrite Heq; simpl.
  - rewrite SetKey_ok by auto. unfold with_db. simpl.
    now rewrite !put_put_same.
  - now apply SetKey_ok.
Qed.

Lemma SetKey_last_write_wins_witness :
  fst (SetKey sample "bob" (bytes_of_string "new")) = None /\
  SetKey (snd (SetKey sample "bob" (bytes_of_string "old"))) "bob"
    (bytes_of_string "new")
  = SetKey sample "bob" (bytes_of_string "new").
Proof.
  split; [reflexivity|].
  apply (SetKey_last_write_wins sample "bob" (bytes_of_string "old")
           (bytes_of_string "new")).
  reflexivity.
Defined.

(** X5.  Writes to different keys commute: on key-sorted buckets the two
    orders of [SetKey] on [k1] and on [k2] leave the same handle. *)
Theorem SetKey_commute (d : Database) (k1 k2 : string) (v1 v2 : bytes) :
  well_formed d ->
  bytes_of_string k1 <> bytes_of_string k2 ->
  snd (SetKey (snd (SetKey d k1 v1)) k2 v2) =
  snd (SetKey (snd (SetKey d k2 v2)) k1 v1).
Proof.
  intros [Hp Ho] Hne.
  destruct (SetKey_eq d k1 v1) as [_ H1].
  destruct (SetKey_eq d k2 v2) as [_ H2].
  destruct (SetKey_eq (snd (SetKey d k1 v1)) k2 v2) as [_ H12].
  destruct (SetKey_eq (snd (SetKey d k2 v2)) k1 v1) as [_ H21].
  rewrite H12, H21, H1, H2.
  destruct (negb (readOnly d) && accepts (bytes_of_string k1) v1) eqn:E1;
    destruct (negb (readOnly d) && accepts (bytes_of_string k2) v2) eqn:E2;
    simpl; rewrite ?E1, ?E2; auto.
  unfold with_db. simpl. unfold primary, outbox in *.
  rewrite (put_put_other (bytes_of_string k2) (bytes_of_string k1))
    by (auto; congruence).
  rewrite (put_put_other (bytes_of_string k2) (bytes_of_string k1)
             v2 v1 (replication (db d))) by (auto; congruence).
  reflexivity.
Qed.

Lemma SetKey_commute_witness :
  well_formed sample /\
  bytes_of_string "dave" <> bytes_of_string "bob" /\
  snd (SetKey (snd (SetKey sample "dave" (bytes_of_string "x"))) "bob"
         (bytes_of_string "y")) =
  snd (SetKey (snd (SetKey sample "bob" (bytes_of_string "y"))) "dave"
         (bytes_of_string "x")).
Proof.
  assert (Hwf : well_formed sample) by (split; reflexivity).
  assert (Hne : bytes_of_string "dave" <> bytes_of_string "bob")
    by discriminate.
  split; [exact Hwf|]. split; [exact Hne|].
  apply (SetKey_commute sample "dave" "bob" (bytes_of_string "x")
           (bytes_of_string "y") Hwf Hne).
Defined.

End Writes.

(* ================================================================= *)
(** ** The outbox: peeking and acknowledging *)

Section Outbox.

Import bolt db.

(** What [GetNextForReplication] returns, by the first pair of the
    outbox. *)
Lemma GetNextForReplication_eq (d : Database) :
  GetNextForReplication d =
    match outbox d with
    | [] => (nilSlice, nilSlice, None)
    | (k, v) :: _ => (Slice Heap k, Slice Heap v, None)
    end.
Proof.
  unfold GetNextForReplication, View, Cursor_First, outbox.
  cbn [Bucket root].
  destruct (replication (db d)) as [|[k v] rest]; auto.
  unfold copyByteSlice. now rewrite !copy_make.
Qed.

(** X6.  [copyByteSlice] returns a slice with the bytes of its argument,
    [nil] exactly when the argument is [nil], never one backed by the pages
    of a transaction; copying a copy changes nothing. *)
Theorem copyByteSlice_copies (s : slice) :
  data_of (copyByteSlice s) = data_of s /\
  is_nil (copyByteSlice s) = is_nil s /\
  (forall v : bytes, copyByteSlice s <> Slice TxPage v) /\
  copyByteSlice (copyByteSlice s) = copyByteSlice s.
Proof.
  destruct s as [|mem data]; simpl.
  - repeat split; auto. discriminate.
  - rewrite !copy_make. repeat split; auto. discriminate.
Qed.

(** X7.  Acknowledging the pair that [GetNextForReplication] returned
    succeeds: it removes the first pair of the outbox and nothing else, and
    on key-sorted buckets the next pair returned, if any, has a strictly
    greater key. *)
Theorem peek_then_acknowledge (d : Database) (mk mv : backing)
    (k v : bytes) :
  well_formed d ->
  GetNextForReplication d = (Slice mk k, Slice mv v, None) ->
  exists rest : bucket,
    outbox d = (k, v) :: rest /\
    DeleteReplicationKey d k v =
      (None,
       with_db d {| default := default (db d); replication := rest |}) /\
    (GetNextForReplication (snd (DeleteReplicationKey d k v))
       = (nilSlice, nilSlice, None) \/
     exists k' v' : bytes,
       GetNextForReplication (snd (DeleteReplicationKey d k v))
         = (Slice Heap k', Slice Heap v', None) /\
       bytes_lt k k').
Proof.
  intros [_ Ho] Hpeek. rewrite GetNextForReplication_eq in Hpeek.
  destruct (outbox d) as [|[k0 v0] rest] eqn:Hout; [discriminate|].
  inversion Hpeek; subst k0 v0; clear Hpeek. exists rest.
  assert (Hack : DeleteReplicationKey d k v =
                   (None,
                    with_db d {| default := default (db d);
                                 replication := rest |})).
  { rewrite DeleteReplicationKey_cases, Hout. unfold outbox in Hout.
    rewrite Hout. simpl. rewrite bytes_Compare_refl, bytes_Equal_refl.
    reflexivity. }
  split; [reflexivity|]. split; [exact Hack|].
  rewrite Hack, GetNextForReplication_eq. unfold outbox. simpl.
  destruct rest as [|[k' v'] rest']; [now left|]. right.
  exists k', v'. split; [reflexivity|].
  pose proof (sorted_tail_above k v _ Ho) as Hall.
  inversion Hall; subst. assumption.
Qed.

Lemma peek_then_acknowledge_witness :
  well_formed sample /\
  GetNextForReplication sample =
    (Slice Heap (bytes_of_string "alice"),
     Slice Heap (bytes_of_string "v2"), None) /\
  exists rest : bucket,
    outbox sample = (bytes_of_string "alice", bytes_of_string "v2") :: rest /\
    DeleteReplicationKey sample (bytes_of_string "alice")
      (bytes_of_string "v2") =
      (None,
       with_db sample
         {| default := default (db sample); replication := rest |}).
Proof.
  assert (Hwf : well_formed sample) by (split; reflexivity).
  assert (Hpeek : GetNextForReplication sample =
                    (Slice Heap (bytes_of_string "alice"),
                     Slice Heap (bytes_of_string "v2"), None))
    by reflexivity.
  split; [exact Hwf|]. split; [exact Hpeek|].
  destruct (peek_then_acknowledge sample Heap Heap
              (bytes_of_string "alice") (bytes_of_string "v2") Hwf Hpeek)
    as (rest & Hout & Hack & _).
  exists rest. split; assumption.
Defined.

(** X8.  The outbox is served in key order, not in the order of the
    writes: after a successful [SetKey] of [v] on [k],
    [GetNextForReplication] returns [(k, v)] when the outbox was empty or
    [k] is not above its first key, and the pair that was first
    otherwise. *)
Theorem SetKey_then_peek (d : Database) (k : string) (v : bytes) :
  fst (SetKey d k v) = None ->
  GetNextForReplication (snd (SetKey d k v)) =
    match outbox d with
    | [] => (Slice Heap (bytes_of_string k), Slice Heap v, None)
    | (k0, v0) :: _ =>
        match bytes_Compare (bytes_of_string k) k0 with
        | Gt => (Slice Heap k0, Slice Heap v0, None)
        | _ => (Slice Heap (bytes_of_string k), Slice Heap v, None)
        end
    end.
Proof.
  intros Hok. apply SetKey_success in Hok as [_ ->].
  rewrite GetNextForReplication_eq. unfold outbox. simpl.
  destruct (replication (db d)) as [|[k0 v0] rest]; simpl; auto.
  destruct (bytes_Compare (bytes_of_string k) k0); reflexivity.
Qed.

Lemma SetKey_then_peek_witness :
  fst (SetKey sample "zoe" (bytes_of_string "v")) = None /\
  GetNextForReplication (snd (SetKey sample "zoe" (bytes_of_string "v"))) =
    (Slice Heap (bytes_of_string "alice"),
     Slice Heap (bytes_of_string "v2"), None).
Proof.
  split; [reflexivity|].
  rewrite (SetKey_then_peek sample "zoe" (bytes_of_string "v") eq_refl).
  reflexivity.
Defined.

(** X9.  A write followed by its acknowledgment: after a successful
    [SetKey] of [v] on [k], [DeleteReplicationKey] on [(k, v)] succeeds and
    leaves the primary bucket of the write and the outbox of before the
    write without its pair for [k]; the outbox is exactly the one of before
    the write when that held no pair for [k]. *)
Theorem SetKey_then_acknowledge (d : Database) (k : string) (v : bytes) :
  fst (SetKey d k v) = None ->
  let d1 := snd (SetKey d k v) in
  let r := DeleteReplicationKey d1 (bytes_of_string k) v in
  fst r = None /\
  primary (snd r) = primary d1 /\
  get (bytes_of_string k) (primary (snd r)) = Some v /\
  outbox (snd r) = delete (bytes_of_string k) (outbox d) /\
  (get (bytes_of_string k) (outbox d) = None -> outbox (snd r) = outbox d).
Proof.
  intros Hok d1 r. subst r d1.
  apply SetKey_success in Hok as [_ ->].
  rewrite DeleteReplicationKey_cases. unfold outbox, primary. simpl.
  rewrite !get_put_same, bytes_Equal_refl. simpl.
  rewrite get_put_same, delete_put_same. repeat split.
  intros Habs. now apply delete_absent.
Qed.

Lemma SetKey_then_acknowledge_witness :
  fst (SetKey sample "bob" (bytes_of_string "v8")) = None /\
  outbox
    (snd (DeleteReplicationKey
            (snd (SetKey sample "bob" (bytes_of_string "v8")))
            (bytes_of_string "bob") (bytes_of_string "v8")))
  = outbox sample.
Proof.
  split; [reflexivity|].
  apply (SetKey_then_acknowledge sample "bob" (bytes_of_string "v8")
           eq_refl).
  reflexivity.
Defined.

(** X10.  An acknowledgment cannot be applied twice: on key-sorted buckets,
    after a successful [DeleteReplicationKey] the same call fails with
    NotFound and changes nothing. *)
Theorem acknowledge_twice (d : Database) (k v : bytes) :
  well_formed d ->
  fst (DeleteReplicationKey d k v) = None ->
  DeleteReplicationKey (snd (DeleteReplicationKey d k v)) k v =
    (Some NotFound, snd (DeleteReplicationKey d k v)).
Proof.
  intros [_ Ho] Hok.
  rewrite (DeleteReplicationKey_cases d) in *.
  destruct (get k (outbox d)) as [v'|]; [|discriminate].
  destruct (bytes_Equal v' v); [|discriminate]. simpl.
  rewrite DeleteReplicationKey_cases. unfold outbox. simpl.
  now rewrite get_delete_same.
Qed.

Lemma acknowledge_twice_witness :
  well_formed sample /\
  fst (DeleteReplicationKey sample (bytes_of_string "carol")
         (bytes_of_string "v3")) = None /\
  fst (DeleteReplicationKey
         (snd (DeleteReplicationKey sample (bytes_of_string "carol")
                 (bytes_of_string "v3")))
         (bytes_of_string "carol") (bytes_of_string "v3"))
  = Some NotFound.
Proof.
  assert (Hwf : well_formed sample) by (split; reflexivity).
  split; [exact Hwf|]. split; [reflexivity|].
  rewrite (acknowledge_twice sample (bytes_of_string "carol")
             (bytes_of_string "v3") Hwf eq_refl).
  reflexivity.
Defined.

End Outbox.

(* ================================================================= *)
(** ** The clean-up *)

Section Cleanup.

Import bolt db.

(** The handle [DeleteExtraKeys] leaves. *)
Lemma DeleteExtraKeys_eq (d : Database) (isExtra : string -> bool) :
  DeleteExtraKeys d isExtra =
    (None,
     with_db d
       {| default :=
            fold_left (fun b k => delete (bytes_of_string k) b)
              (filter isExtra
                 (map (fun kv => string_of_bytes (fst kv)) (primary d)))
              (primary d);
          replication := outbox d |}).
Proof.
  unfold DeleteExtraKeys. rewrite DeleteExtraKeys_between_eq.
  now rewrite collectExtraKeys_eq.
Qed.

Lemma get_after_cleanup (d : Database) (isExtra : string -> bool)
    (key : bytes) :
  sorted (primary d) = true ->
  get key (primary (snd (DeleteExtraKeys d isExtra))) =
    if isExtra (string_of_bytes key) then None else get key (primary d).
Proof.
  intros Hp. rewrite DeleteExtraKeys_eq. unfold primary at 1. simpl.
  rewrite get_deletes by assumption.
  pose proof (collected_iff isExtra (primary d) key Hp) as Hiff.
  destruct (existsb _ _).
  - destruct Hiff as [[Hex _] _]; auto. now rewrite Hex.
  - destruct (isExtra (string_of_bytes key)) eqn:Hex; auto.
    destruct (get key (primary d)) eqn:Hg; auto.
    destruct Hiff as [_ Hback]. discriminate Hback. split; congruence.
Qed.

Lemma nothing_collected (isExtra : string -> bool) (b : bucket) :
  (forall k v : bytes, In (k, v) b -> isExtra (string_of_bytes k) = false) ->
  filter isExtra (map (fun kv => string_of_bytes (fst kv)) b) = [].
Proof.
  induction b as [|[h vh] rest IH]; intros Hall; simpl; auto.
  rewrite (Hall h vh) by now left.
  apply IH. intros k v Hin. apply (Hall k v). now right.
Qed.

(** X11.  When [isExtra] rejects every key of the primary bucket,
    [DeleteExtraKeys] succeeds and leaves the handle exactly as it was. *)
Theorem DeleteExtraKeys_nothing_extra (d : Database)
    (isExtra : string -> bool) :
  (forall k v : bytes,
     In (k, v) (primary d) -> isExtra (string_of_bytes k) = false) ->
  DeleteExtraKeys d isExtra = (None, d).
Proof.
  intros Hall. rewrite DeleteExtraKeys_eq.
  rewrite nothing_collected by assumption. simpl.
  unfold primary, outbox, with_db. now destruct d as [[dflt repl] ro].
Qed.

Lemma DeleteExtraKeys_nothing_extra_witness :
  (forall k v : bytes,
     In (k, v) (primary sample) ->
     String.eqb (string_of_bytes k) "zoe" = false) /\
  DeleteExtraKeys sample (fun s => String.eqb s "zoe") = (None, sample).
Proof.
  assert (Hall : forall k v : bytes,
             In (k, v) (primary sample) ->
             String.eqb (string_of_bytes k) "zoe" = false).
  { intros k v [H | [H | [H | []]]]; inversion H; reflexivity. }
  split; [exact Hall|].
  apply (DeleteExtraKeys_nothing_extra sample (fun s => String.eqb s "zoe")
           Hall).
Defined.

(** X12.  The clean-up is idempotent: on key-sorted buckets a second
    [DeleteExtraKeys] with the same predicate succeeds and changes
    nothing. *)
Theorem DeleteExtraKeys_idempotent (d : Database)
    (isExtra : string -> bool) :
  well_formed d ->
  DeleteExtraKeys (snd (DeleteExtraKeys d isExtra)) isExtra =
    (None, snd (DeleteExtraKeys d isExtra)).
Proof.
  intros Hwf.
  pose proof (well_formed_DeleteExtraKeys d isExtra Hwf) as [Hp' _].
  destruct Hwf as [Hp _].
  set (d' := snd (DeleteExtraKeys d isExtra)) in *.
  rewrite DeleteExtraKeys_eq.
  rewrite nothing_collected.
  - simpl. unfold primary, outbox, with_db.
    now destruct d' as [[dflt repl] ro].
  - intros k v Hin. apply In_get in Hin; auto.
    subst d'. rewrite get_after_cleanup in Hin by assumption.
    destruct (isExtra (string_of_bytes k)); [discriminate | reflexivity].
Qed.

Lemma DeleteExtraKeys_idempotent_witness :
  well_formed sample /\
  primary (snd (DeleteExtraKeys sample (fun s => String.eqb s "bob")))
    <> primary sample /\
  DeleteExtraKeys
    (snd (DeleteExtraKeys sample (fun s => String.eqb s "bob")))
    (fun s => String.eqb s "bob")
  = (None, snd (DeleteExtraKeys sample (fun s => String.eqb s "bob"))).
Proof.
  assert (Hwf : well_formed sample) by (split; reflexivity).
  split; [exact Hwf|]. split; [discriminate|].
  apply (DeleteExtraKeys_idempotent sample (fun s => String.eqb s "bob")
           Hwf).
Defined.

End Cleanup.

(* ================================================================= *)
(** ** Invariants over sequences of calls *)

Section Histories.

Import bolt db.

Lemma sub_bucket_refl (b : bucket) : sub_bucket b b.
Proof. intros k v H. exact H. Qed.

Lemma sub_bucket_trans (a b c : bucket) :
  sub_bucket a b -> sub_bucket b c -> sub_bucket a c.
Proof. intros Hab Hbc k v H. auto. Qed.

Lemma sub_bucket_delete (k : bytes) (b : bucket) :
  sorted b = true -> sub_bucket (delete k b) b.
Proof.
  intros Hs k' v Hget.
  destruct (list_eq_dec byte_eq_dec k k') as [<- | Hne].
  - rewrite get_delete_same in Hget by assumption. discriminate.
  - now rewrite get_delete_other in Hget.
Qed.

(** On a read-only handle a call adds and changes nothing. *)
Lemma read_only_exec (d : Database) (c : call) :
  well_formed d ->
  readOnly d = true ->
  readOnly (exec d c) = true /\
  sub_bucket (primary (exec d c)) (primary d) /\
  sub_bucket (outbox (exec d c)) (outbox d).
Proof.
  intros [Hp Ho] Hro.
  destruct c as [k v| | |k v|isExtra]; simpl;
    auto using sub_bucket_refl.
  - unfold SetKey. rewrite Hro. simpl. auto using sub_bucket_refl.
  - rewrite DeleteReplicationKey_cases.
    destruct (get k (outbox d)) as [v'|]; auto using sub_bucket_refl.
    destruct (bytes_Equal v' v); simpl; auto using sub_bucket_refl.
    repeat split; auto using sub_bucket_refl.
    unfold outbox. simpl. now apply sub_bucket_delete.
  - rewrite DeleteExtraKeys_eq. simpl. repeat split;
      auto using sub_bucket_refl.
    intros k v Hget.
    pose proof (get_after_cleanup d isExtra k Hp) as Heq.
    rewrite DeleteExtraKeys_eq in Heq. simpl in Heq.
    rewrite Heq in Hget.
    destruct (isExtra (string_of_bytes k)); [discriminate | assumption].
Qed.

(** X13.  Through a read-only handle nothing is ever added or changed:
    after any sequence of calls the handle is still read-only and every
    pair of its primary bucket and of its outbox was there, with that
    value, at the start.  (Pairs can still go: [DeleteReplicationKey] and
    [DeleteExtraKeys] do not look at the mode.) *)
Theorem read_only_never_adds (d : Database) (cs : list call) :
  well_formed d ->
  readOnly d = true ->
  readOnly (execs d cs) = true /\
  (forall k v : bytes,
     get k (primary (execs d cs)) = Some v -> get k (primary d) = Some v) /\
  (forall k v : bytes,
     get k (outbox (execs d cs)) = Some v -> get k (outbox d) = Some v).
Proof.
  revert d. induction cs as [|c cs IH]; intros d Hwf Hro; simpl; auto.
  destruct (read_only_exec d c Hwf Hro) as (Hro' & Hp & Ho).
  destruct (IH (exec d c) (well_formed_exec d c Hwf) Hro')
    as (Hro2 & Hp2 & Ho2).
  repeat split; auto.
Qed.

Lemma read_only_never_adds_witness :
  let d := with_db (opened true) (db sample) in
  let cs :=
    [ CallSetKey "dave" (bytes_of_string "v");
      CallDeleteReplicationKey (bytes_of_string "alice")
        (bytes_of_string "v2");
      CallDeleteExtraKeys (fun s => String.eqb s "bob") ] in
  well_formed d /\
  readOnly d = true /\
  readOnly (execs d cs) = true /\
  outbox (execs d cs) <> outbox d /\
  primary (execs d cs) <> primary d.
Proof.
  intros d cs.
  assert (Hwf : well_formed d) by (split; reflexivity).
  split; [exact Hwf|]. split; [reflexivity|].
  split; [|split; discriminate].
  apply (read_only_never_adds d cs Hwf eq_refl).
Defined.

Lemma agree_exec (d : Database) (c : call) :
  well_formed d -> agree d -> agree (exec d c).
Proof.
  intros [Hp Ho] Hag.
  destruct c as [k v| | |k v|isExtra]; simpl; auto.
  - destruct (SetKey_cases d k v) as [(_ & _ & ->) | [e ->]]; simpl; auto.
    intros k' w w'. unfold outbox, primary. simpl.
    destruct (list_eq_dec byte_eq_dec (bytes_of_string k) k') as [<- | Hne].
    + rewrite !get_put_same. congruence.
    + rewrite !get_put_other by assumption. apply Hag.
  - rewrite DeleteReplicationKey_cases.
    destruct (get k (outbox d)) as [v'|]; auto.
    destruct (bytes_Equal v' v); simpl; auto.
    intros k' w w' Hout Hprim. unfold outbox, primary in *. simpl in *.
    apply (sub_bucket_delete k _ Ho) in Hout. eapply Hag; eauto.
  - intros k' w w' Hout Hprim.
    rewrite get_after_cleanup in Hprim by assumption.
    rewrite DeleteExtraKeys_eq in Hout. unfold outbox at 1 in Hout.
    simpl in Hout.
    destruct (isExtra (string_of_bytes k')); [discriminate|].
    eapply Hag; eauto.
Qed.

(** X14.  The outbox never holds a stale value: after any sequence of
    calls on a new file, the clean-up included, a key that the outbox and
    the primary bucket both hold has the same value in both. *)
Theorem outbox_never_stale (mode : bool) (cs : list call) (k v v' : bytes) :
  get k (outbox (execs (opened mode) cs)) = Some v ->
  get k (primary (execs (opened mode) cs)) = Some v' ->
  v = v'.
Proof.
  assert (Hinv : forall (cs : list call) (d : Database),
             well_formed d -> agree d -> agree (execs d cs)).
  { clear. induction cs as [|c cs IH]; intros d Hwf Hag; simpl; auto.
    apply IH; auto using well_formed_exec, agree_exec. }
  apply (Hinv cs (opened mode)).
  - apply well_formed_opened.
  - intros k0 w w' H. discriminate H.
Qed.

Lemma outbox_never_stale_witness :
  let cs :=
    [ CallSetKey "bob" (bytes_of_string "v1");
      CallDeleteExtraKeys (fun _ => true);
      CallSetKey "bob" (bytes_of_string "v2") ] in
  get (bytes_of_string "bob") (outbox (execs (opened false) cs))
    = Some (bytes_of_string "v2") /\
  get (bytes_of_string "bob") (primary (execs (opened false) cs))
    = Some (bytes_of_string "v2").
Proof.
  intros cs.
  assert (Hout : get (bytes_of_string "bob")
                   (outbox (execs (opened false) cs))
                 = Some (bytes_of_string "v2")) by reflexivity.
  split; [exact Hout|].
  destruct (get (bytes_of_string "bob") (primary (execs (opened false) cs)))
    as [w|] eqn:Hprim; [|discriminate].
  now rewrite (outbox_never_stale false cs (bytes_of_string "bob")
                 (bytes_of_string "v2") w Hout Hprim).
Defined.

Lemma within_limits_exec (d : Database) (c : call) :
  within_limits (primary d) /\ within_limits (outbox d) ->
  within_limits (primary (exec d c)) /\ within_limits (outbox (exec d c)).
Proof.
  intros [Hp Ho].
  destruct c as [k v| | |k v|isExtra]; simpl; auto.
  - destruct (SetKey_cases d k v) as [(_ & Hacc & ->) | [e ->]]; simpl; auto.
    unfold primary, outbox. simpl. split; now apply within_limits_put.
  - rewrite DeleteReplicationKey_cases.
    destruct (get k (outbox d)) as [v'|]; auto.
    destruct (bytes_Equal v' v); simpl; auto.
    unfold primary, outbox. simpl. split; auto.
    now apply within_limits_delete.
  - rewrite DeleteExtraKeys_eq. unfold primary at 1, outbox at 1. simpl.
    split; auto. now apply within_limits_deletes.
Qed.

(** X15.  No call stores what bbolt would refuse: after any sequence of
    calls on a new file, every key of either bucket is non-empty and at
    most 32768 bytes long, and every value is at most 2^31 - 2 bytes
    long. *)
Theorem stored_pairs_within_limits (mode : bool) (cs : list call)
    (k v : bytes) :
  In (k, v) (primary (execs (opened mode) cs)) \/
  In (k, v) (outbox (execs (opened mode) cs)) ->
  k <> [] /\ (len k <= 32768)%N /\ (len v <= 2147483646)%N.
Proof.
  assert (Hinv : forall (cs : list call) (d : Database),
             within_limits (primary d) /\ within_limits (outbox d) ->
             within_limits (primary (execs d cs)) /\
             within_limits (outbox (execs d cs))).
  { clear. induction cs as [|c cs IH]; intros d Hd; simpl; auto.
    apply IH. now apply within_limits_exec. }
  destruct (Hinv cs (opened mode)) as [Hp Ho].
  { split; constructor. }
  unfold within_limits in *. rewrite Forall_forall in Hp, Ho.
  intros [Hin | Hin]; [apply Hp in Hin | apply Ho in Hin];
    simpl in Hin; now apply accepts_iff.
Qed.

Lemma stored_pairs_within_limits_witness :
  In (bytes_of_string "alice", bytes_of_string "v2") (outbox sample) /\
  bytes_of_string "alice" <> [].
Proof.
  assert (Hin : In (bytes_of_string "alice", bytes_of_string "v2")
                  (outbox sample)) by (left; reflexivity).
  split; [exact Hin|].
  apply (stored_pairs_within_limits false
           [ CallSetKey "bob" (bytes_of_string "v1");
             CallSetKey "alice" (bytes_of_string "v2");
             CallSetKey "carol" (bytes_of_string "v3");
             CallDeleteReplicationKey (bytes_of_string "bob")
               (bytes_of_string "v1") ]
           (bytes_of_string "alice") (bytes_of_string "v2")).
  right. exact Hin.
Defined.

End Histories.

(* ================================================================= *)
(** ** Reading and reopening *)

Section Reading.

Import bolt db.



(** X18.  What was written through one handle is read through the next:
    after a successful [SetKey] of [v] on [k], a handle opened in any mode
    on the committed file returns [v] for [k], and the outbox still holds
    the pair for the next peek. *)
Theorem SetKey_survives_reopen (d : Database) (k : string) (v : bytes)
    (mode : bool) :
  fst (SetKey d k v) = None ->
  exists d' : Database,
    NewDatabase (Ok (file_of (db (snd (SetKey d k v))))) mode = Ok d' /\
    readOnly d' = mode /\
    GetKey d' k = (Slice TxPage v, None) /\
    get (bytes_of_string k) (outbox d') = Some v.
Proof.
  intros Hok. apply SetKey_success in Hok as [_ Heq].
  eexists. split; [reflexivity|]. rewrite Heq.
  unfold GetKey, View, Get, outbox. simpl.
  rewrite !get_put_same. auto.
Qed.

Lemma SetKey_survives_reopen_witness :
  fst (SetKey sample "k" (bytes_of_string "v")) = None /\
  exists d' : Database,
    NewDatabase
      (Ok (file_of (db (snd (SetKey sample "k" (bytes_of_string "v"))))))
      true = Ok d' /\
    readOnly d' = true /\
    GetKey d' "k" = (Slice TxPage (bytes_of_string "v"), None).
Proof.
  split; [reflexivity|].
  destruct (SetKey_survives_reopen sample "k" (bytes_of_string "v") true
              eq_refl) as (d' & Hopen & Hro & Hget & _).
  exists d'. repeat split; assumption.
Defined.

End Reading.

(* ================================================================= *)
(** ** What a serving process went through *)

Section Serving.

Import main.

Lemma init_passes (f : flags) :
  init f = None <->
  httpAddr f <> "" /\ dbLocation f <> "" /\ shard f <> "".
Proof.
  unfold init.
  destruct (String.eqb_spec (httpAddr f) "") as [E1 | E1].
  - split; [discriminate | tauto].
  - destruct (String.eqb_spec (dbLocation f) "") as [E2 | E2].
    + split; [discriminate | tauto].
    + destruct (String.eqb_spec (shard f) "") as [E3 | E3].
      * split; [discriminate | tauto].
      * tauto.
Qed.


(** X20.  A process that serves has been through every step of the
    start-up: the command line parsed, the three required flags are
    non-empty, the configuration file named by the flags was read, the
    shard was found in it, the database at the storage path opened, and the
    server listens on the address of the flags with a handle that has both
    buckets of that file. *)
Theorem serving_requires (ParseFile : string -> result config.Config)
    (Open : string -> result bolt.file) (mode : bool)
    (args : list (string * string)) (addr : string) (d : db.Database)
    (t : config.ShardTable) :
  start ParseFile Open mode args = Serving addr d t ->
  exists (f : flags) (cfg : config.Config) (file : bolt.file),
    Parse args declared = Some f /\
    httpAddr f <> "" /\ dbLocation f <> "" /\ shard f <> "" /\
    addr = httpAddr f /\
    ParseFile (configFileName f) = Ok cfg /\
    config.build (config.Shards cfg) (shard f) = Ok t /\
    Open (dbLocation f) = Ok file /\
    db.NewDatabase (Ok file) mode = Ok d.
Proof.
  unfold start. intros H.
  destruct (Parse args declared) as [f|]; [|discriminate].
  destruct (init f) as [msg|] eqn:Hinit; [discriminate|].
  apply init_passes in Hinit as (H1 & H2 & H3).
  unfold main in H.
  destruct (ParseFile (configFileName f)) as [cfg|e] eqn:Hcfg;
    [|discriminate].
  destruct (config.build (config.Shards cfg) (shard f)) as [t'|e] eqn:Hb;
    [|discriminate].
  destruct (Open (dbLocation f)) as [file|e] eqn:Hopen;
    [|discriminate].
  simpl in H. inversion H; subst.
  exists f, cfg, file. repeat split; auto.
Qed.

Lemma serving_requires_witness :
  exists (addr : string) (d : db.Database) (t : config.ShardTable),
    start files_ParseFile files_Open false args_without_config
      = Serving addr d t /\
    addr = "localhost:8080" /\
    exists f : flags,
      Parse args_without_config declared = Some f /\ shard f <> "".
Proof.
  eexists. eexists. eexists.
  assert (Hs : start files_ParseFile files_Open false args_without_config
               = Serving "localhost:8080" (db.opened false)
                   {| config.shards := config.three_shards;
                      config.count := 3; config.selfIndex := 0 |})
    by reflexivity.
  split; [exact Hs|]. split; [reflexivity|].
  destruct (serving_requires files_ParseFile files_Open false
              args_without_config _ _ _ Hs)
    as (f & _ & _ & Hp & _ & _ & Hshard & _).
  exists f. split; assumption.
Defined.

End Serving.

(* ================================================================= *)
(** ** The primary bucket after the clean-up *)

Section CleanupState.

Import bolt db.

Lemma above_Forall (h : bytes) (b : bucket) :
  Forall (fun kv => bytes_lt h (fst kv)) b -> above h b = true.
Proof.
  destruct b as [|[k v] rest]; simpl; auto.
  intros H. inversion H; subst. simpl in *.
  unfold bytes_lt in *. now rewrite H2.
Qed.

Lemma sorted_filter (q : bytes * bytes -> bool) (b : bucket) :
  sorted b = true -> sorted (filter q b) = true.
Proof.
  induction b as [|[h vh] rest IH]; auto.
  intros Hs. pose proof (sorted_tail_above h vh rest Hs) as Hall.
  apply sorted_cons in Hs as [_ Hr]. simpl.
  destruct (q (h, vh)); auto.
  apply sorted_cons. split; auto.
  apply above_Forall. rewrite Forall_forall in *.
  intros kv Hin. apply filter_In in Hin as [Hin _]. auto.
Qed.

Lemma get_filter (p : bytes -> bool) (k : bytes) (b : bucket) :
  sorted b = true ->
  get k (filter (fun kv => p (fst kv)) b) =
    if p k then get k b else None.
Proof.
  induction b as [|[h vh] rest IH]; intros Hs.
  - simpl. now destruct (p k).
  - apply sorted_cons in Hs as [Ha Hr]. specialize (IH Hr).
    cbn [filter fst]. destruct (p h) eqn:Hph.
    + cbn [get]. destruct (bytes_Compare k h) eqn:E.
      * apply bytes_Compare_eq in E. subst k. now rewrite Hph.
      * now destruct (p k).
      * exact IH.
    + rewrite IH. destruct (p k) eqn:Hpk; auto.
      cbn [get]. destruct (bytes_Compare k h) eqn:E; auto.
      * apply bytes_Compare_eq in E. congruence.
      * apply above_get. now apply above_lt with h.
Qed.

(** X21.  On key-sorted buckets [DeleteExtraKeys] leaves in the primary
    bucket exactly the pairs whose key [isExtra] rejects, in their order,
    and so never more pairs than there were. *)
Theorem DeleteExtraKeys_filters (d : Database) (isExtra : string -> bool) :
  well_formed d ->
  primary (snd (DeleteExtraKeys d isExtra)) =
    filter (fun kv => negb (isExtra (string_of_bytes (fst kv)))) (primary d)
  /\
  List.length (primary (snd (DeleteExtraKeys d isExtra)))
    <= List.length (primary d).
Proof.
  intros Hwf.
  pose proof (well_formed_DeleteExtraKeys d isExtra Hwf) as [Hp' _].
  destruct Hwf as [Hp _].
  assert (Heq : primary (snd (DeleteExtraKeys d isExtra)) =
                filter
                  (fun kv => negb (isExtra (string_of_bytes (fst kv))))
                  (primary d)).
  { apply sorted_ext; auto using sorted_filter.
    intros k. rewrite get_after_cleanup by assumption.
    rewrite (get_filter (fun key => negb (isExtra (string_of_bytes key))))
      by assumption.
    now destruct (isExtra (string_of_bytes k)). }
  split; [exact Heq|]. rewrite Heq. apply filter_length_le.
Qed.

Lemma DeleteExtraKeys_filters_witness :
  well_formed sample /\
  primary (snd (DeleteExtraKeys sample (fun s => String.eqb s "bob"))) =
    [ (bytes_of_string "alice", bytes_of_string "v2");
      (bytes_of_string "carol", bytes_of_string "v3") ].
Proof.
  assert (Hwf : well_formed sample) by (split; reflexivity).
  split; [exact Hwf|].
  rewrite (proj1 (DeleteExtraKeys_filters sample
                    (fun s => String.eqb s "bob") Hwf)).
  reflexivity.
Defined.

End CleanupState.
